(** * HyperLogLog cardinality estimator ([hyperloglog.go], package [pds])

    A shallow embedding of the Go source and the properties its
    specification states about it.

    Data model.
    - [uint32] values are [Z] in [0, 2^32); arithmetic wraps with [u32].
    - [int] and [int64] values are [Z] in [-2^63, 2^63) ([int] is 64 bits
      wide on the platforms considered); arithmetic wraps with [wrap64].
    - [float64] is Rocq's primitive binary64 [float]: the four operations
      and the comparisons are the IEEE 754 ones, as in Go.
    - a slice of buckets is a [list bucket], indexed with stdpp's lookup
      and updated in place with stdpp's insert; an index out of range is a
      run-time panic in Go and [Panics] here.

    What lies outside the repository.
    - [math.Log], [math.Log2] and [math.Pow] are functions of Go's
      standard library.  They are fields of [GoRuntime]; what the proofs
      need about them is stated as hypotheses of the section
      [Properties], next to the sentence of Go's documentation each one
      comes from.
    - The Go specification leaves the result of converting a
      floating-point value to an integer type that cannot represent it
      implementation-dependent; [indefinite_int] and [indefinite_uint32]
      give that result.
    - [hash/fnv]'s 32-bit FNV-1a is written out in [hash]. *)

From Stdlib Require Import ZArith Lia Floats Ascii String.
From stdpp Require Import base list strings.

#[local] Set Warnings "-inexact-float".
#[local] Open Scope Z_scope.

(** ** Machine integers *)

Definition u32 (z : Z) : Z := z mod 2 ^ 32.

Definition wrap64 (z : Z) : Z := (z + 2 ^ 63) mod 2 ^ 64 - 2 ^ 63.

(** ** Conversions between integers and [float64] *)

(** [float64(n)] for an integer [n]: the nearest binary64 value, ties to
    even.  On [0, 2^63) this is the primitive [of_uint63]; rounding is
    symmetric, so a negative [n] converts to the opposite of [float64(-n)];
    the last case serves [-2^63] and the integers of no machine type. *)
Definition Z2F (z : Z) : float :=
  if (0 <=? z) && (z <? 2 ^ 63) then of_uint63 (Uint63.of_Z z)
  else if (- 2 ^ 63 <? z) && (z <? 0) then (- of_uint63 (Uint63.of_Z (- z)))%float
  else SF2Prim (binary_normalize prec emax z 0 false).

(** The integer part of a finite float (truncation towards zero); [None]
    for NaN and the infinities. *)
Definition Ftrunc (f : float) : option Z :=
  match Prim2SF f with
  | S754_zero _ => Some 0
  | S754_finite s m e =>
      let a := if 0 <=? e then Z.shiftl (Z.pos m) e
               else Z.shiftr (Z.pos m) (- e) in
      Some (if s then - a else a)
  | S754_infinity _ | S754_nan => None
  end.

(** ** Outcome of a call that may panic *)

Inductive outcome (A : Type) : Type :=
| Returns (a : A)
| Panics.
Arguments Returns {A} a.
Arguments Panics {A}.

(** ** The parts of the Go runtime the program calls *)

Class GoRuntime : Type := {
  Log : float -> float;               (* math.Log *)
  Log2 : float -> float;              (* math.Log2 *)
  Pow : float -> float -> float;      (* math.Pow *)
  indefinite_int : float -> Z;        (* int(x), int64(x), x not representable *)
  indefinite_uint32 : float -> Z      (* uint32(x), x not representable *)
}.

(** ** const ( byteSize = 8; bytesIn32Bits = 4 ) *)

Definition byteSize : Z := 8.
Definition bytesIn32Bits : Z := 4.

(** ** func hash(value string) uint32

    [fnv.New32a()], [Write], [Sum32]: FNV-1a over the bytes of the string,
    offset basis 2166136261, prime 16777619, modulo 2^32. *)

Definition fnv1a_step (h : Z) (c : ascii) : Z :=
  u32 (Z.lxor h (Z.of_N (N_of_ascii c)) * 16777619).

Fixpoint fnv1a (h : Z) (s : string) : Z :=
  match s with
  | EmptyString => h
  | String c s' => fnv1a (fnv1a_step h c) s'
  end.

Definition hash (value : string) : Z := fnv1a 2166136261 value.

(** ** type bucket struct { cardinalityEstimation int } *)

Record bucket : Type := { cardinalityEstimation : Z }.

(** ** type bucketGroup []bucket *)

Abbreviation bucketGroup := (list bucket).

(** ** type HyperLogLog struct *)

Record HyperLogLog : Type := {
  constant : float;
  indexBits : Z;
  mBuckets : Z;
  buckets : bucketGroup   (* the field bucketGroup *)
}.

Section Model.
Context {rt : GoRuntime}.

(** [int(x)] and [int64(x)] for a [float64] [x]. *)
Definition F2int (f : float) : Z :=
  match Ftrunc f with
  | Some z =>
      if (- 2 ^ 63 <=? z) && (z <? 2 ^ 63) then z
      else wrap64 (indefinite_int f)
  | None => wrap64 (indefinite_int f)
  end.

(** [uint32(x)] for a [float64] [x]. *)
Definition F2uint32 (f : float) : Z :=
  match Ftrunc f with
  | Some z =>
      if (0 <=? z) && (z <? 2 ^ 32) then z
      else u32 (indefinite_uint32 f)
  | None => u32 (indefinite_uint32 f)
  end.

(** ** func findRun(a uint32) int *)
Definition findRun (a : Z) : Z :=
  F2int (Log2 (Z2F (Z.land a (u32 (- a))))).

(** ** func (b *bucket) updateLongestRun(value uint32) *)
Definition updateLongestRun (b : bucket) (value : Z) : bucket :=
  let cardinalityEstimation' := wrap64 (findRun value + 1) in
  if cardinalityEstimation b <? cardinalityEstimation'
  then {| cardinalityEstimation := cardinalityEstimation' |}
  else b.

(** ** func newBucketGroup(mBuckets int64) bucketGroup

    [make] panics on a negative length. *)
Definition newBucketGroup (mBuckets : Z) : outcome bucketGroup :=
  if mBuckets <? 0 then Panics
  else Returns (replicate (Z.to_nat mBuckets) {| cardinalityEstimation := 0 |}).

(** ** func (bg bucketGroup) Len() float64 *)
Definition Len (bg : bucketGroup) : float := Z2F (Z.of_nat (length bg)).

(** ** func (bg bucketGroup) countZeroBuckets() float64 *)
Definition countZeroBuckets (bg : bucketGroup) : float :=
  fold_left
    (fun count b => if cardinalityEstimation b =? 0 then (count + 1)%float else count)
    bg 0%float.

(** ** func (bg bucketGroup) smallRangeCorrection(prediction, totalBuckets float64) float64 *)
Definition smallRangeCorrection (bg : bucketGroup)
    (prediction totalBuckets : float) : float :=
  (totalBuckets * Log (totalBuckets / countZeroBuckets bg))%float.

(** ** func (bg bucketGroup) correct(prediction float64) float64 *)
Definition correct (bg : bucketGroup) (prediction : float) : float :=
  if (prediction <=? 2.5 * Len bg)%float
  then smallRangeCorrection bg prediction (Len bg)
  else prediction.

(** The loop of [harmonicMean]: the sum of [2^(-register)] over the
    buckets, in slice order. *)
Definition harmonicTotal (bg : bucketGroup) : float :=
  fold_left
    (fun total v =>
       (total + Pow 2 (Z2F (wrap64 (-1 * cardinalityEstimation v))))%float)
    bg 0%float.

(** The argument [harmonicMean] passes to [correct]. *)
Definition rawEstimate (bg : bucketGroup) (constant : float) : float :=
  (constant * Len bg * Len bg / harmonicTotal bg)%float.

(** ** func (bg bucketGroup) harmonicMean(constant float64) int64 *)
Definition harmonicMean (bg : bucketGroup) (constant : float) : Z :=
  F2int (correct bg (rawEstimate bg constant)).

(** ** func NewHyperLogLog(indexBits uint32) (HyperLogLog, error)

    The result pairs the struct with the error ([None] for [nil]); the
    zero struct accompanies an error. *)
Definition invalidIndexBits : string :=
  "index bits need to be in interval 4>=x>=16".

Definition zeroHyperLogLog : HyperLogLog :=
  {| constant := 0%float; indexBits := 0; mBuckets := 0; buckets := [] |}.

Definition NewHyperLogLog (indexBits : Z) : outcome (HyperLogLog * option string) :=
  if (indexBits <? 4) || (16 <? indexBits)
  then Returns (zeroHyperLogLog, Some invalidIndexBits)
  else
    let mBuckets := Pow 2 (Z2F indexBits) in
    let constant :=
      match indexBits with
      | 4 => 0.673%float
      | 5 => 0.697%float
      | 6 => 0.709%float
      | _ => (0.7213 / (1 + 1.079 / mBuckets))%float
      end in
    match newBucketGroup (F2int mBuckets) with
    | Returns bg =>
        Returns ({| constant := constant;
                    indexBits := u32 indexBits;
                    mBuckets := F2int mBuckets;
                    buckets := bg |}, None)
    | Panics => Panics
    end.

(** The loop of [getHeadBitTotal], [n] iterations from [i]:
    [x += uint32(math.Pow(float64(2), float64(i)))]. *)
Fixpoint headBitLoop (n : nat) (i x : Z) : Z :=
  match n with
  | O => x
  | S n' => headBitLoop n' (i + 1) (u32 (x + F2uint32 (Pow 2 (Z2F i))))
  end.

(** ** func getHeadBitTotal(bits uint32, byteNumber uint32) uint32

    The loop runs for [i] from [start] while [i < bits+start], both sides
    in [uint32]. *)
Definition getHeadBitTotal (bits byteNumber : Z) : Z :=
  let start := u32 (u32 (byteSize * byteNumber) - byteSize) in
  headBitLoop (Z.to_nat (u32 (bits + start) - start)) start 0.

(** ** func getSignificantBits(n uint32) uint32 *)
Definition getSignificantBits (n : Z) : Z :=
  if n <=? byteSize then getHeadBitTotal n 1
  else
    let remainingBits := u32 (n - byteSize) in
    u32 (getHeadBitTotal byteSize 1 + getHeadBitTotal remainingBits 2).

(** ** func (hll *HyperLogLog) splitBinary(h uint32) (uint32, uint32) *)
Definition splitBinary (hll : HyperLogLog) (h : Z) : Z * Z :=
  let binaryTotal := getSignificantBits (indexBits hll) in
  let binaryIndex := Z.land h binaryTotal in
  let unusedBinary := Z.shiftr (u32 (h - binaryIndex)) (indexBits hll) in
  (binaryIndex, unusedBinary).

(** ** func (hll *HyperLogLog) Add(s string)

    [hll.bucketGroup[binaryIndex]] panics when the index is out of range;
    the bucket is updated in place. *)
Definition Add (hll : HyperLogLog) (s : string) : outcome HyperLogLog :=
  let h := hash s in
  let '(binaryIndex, unusedBinary) := splitBinary hll h in
  match buckets hll !! Z.to_nat binaryIndex with
  | Some b =>
      Returns {| constant := constant hll;
                 indexBits := indexBits hll;
                 mBuckets := mBuckets hll;
                 buckets := <[Z.to_nat binaryIndex := updateLongestRun b unusedBinary]>
                              (buckets hll) |}
  | None => Panics
  end.

(** ** func (hll *HyperLogLog) EstimateCardinality() int64 *)
Definition EstimateCardinality (hll : HyperLogLog) : Z :=
  harmonicMean (buckets hll) (constant hll).

(** A sequence of [Add] calls, left to right. *)
Fixpoint AddAll (hll : HyperLogLog) (ss : list string) : outcome HyperLogLog :=
  match ss with
  | [] => Returns hll
  | s :: ss' =>
      match Add hll s with
      | Returns hll' => AddAll hll' ss'
      | Panics => Panics
      end
  end.

End Model.

(** ** A bounded universal quantifier that computes

    [all_from fuel n f] checks [f] on [n, n+1, ..., n+fuel-1]. *)
Fixpoint all_from (fuel : nat) (n : Z) (f : Z -> bool) : bool :=
  match fuel with
  | O => true
  | S fuel' => f n && all_from fuel' (n + 1) f
  end.

(** ** Reachable estimators and their invariants *)

Section Reachability.
Context {rt : GoRuntime}.

(** An estimator built by [NewHyperLogLog] and mutated by [Add] only. *)
Inductive reachable : HyperLogLog -> Prop :=
| reachable_new (p : Z) (hll : HyperLogLog) :
    0 <= p < 2 ^ 32 ->
    NewHyperLogLog p = Returns (hll, None) ->
    reachable hll
| reachable_add (hll hll' : HyperLogLog) (s : string) :
    reachable hll ->
    Add hll s = Returns hll' ->
    reachable hll'.

End Reachability.

(** The shape [NewHyperLogLog] establishes: a precision in [4, 16] and
    [2^precision] buckets. *)
Definition well_formed (hll : HyperLogLog) : Prop :=
  4 <= indexBits hll <= 16 /\
  mBuckets hll = 2 ^ indexBits hll /\
  Z.of_nat (length (buckets hll)) = 2 ^ indexBits hll.

(** The bucket the low [indexBits] bits of a string's hash select. *)
Definition bucket_index (hll : HyperLogLog) (s : string) : nat :=
  Z.to_nat (hash s mod 2 ^ indexBits hll).

(** Every register lies between 0 and [32 - precision]. *)
Definition registers_bounded (hll : HyperLogLog) : Prop :=
  Forall (fun b => 0 <= cardinalityEstimation b <= 32 - indexBits hll)
         (buckets hll).

(** Register-wise order on two register arrays. *)
Definition registers_le (bg bg' : bucketGroup) : Prop :=
  Forall2 (fun b b' => cardinalityEstimation b <= cardinalityEstimation b') bg bg'.

(** ** The specification's vocabulary

    These definitions follow the words of the specification, not the
    code; the theorems below compare the code with them. *)

(** [trailing_zero_count(w)]: the number of zero bits below the lowest
    set bit. *)
Fixpoint pos_trailing_zeros (p : positive) : Z :=
  match p with
  | xO q => 1 + pos_trailing_zeros q
  | _ => 0
  end.

Definition trailing_zero_count (w : Z) : Z :=
  match w with
  | Z.pos p => pos_trailing_zeros p
  | _ => 0
  end.

(** RankFunction: [trailing_zero_count(w) + 1]. *)
Definition spec_rank (w : Z) : Z := trailing_zero_count w + 1.

(** BitSplitter: [index = h & (2^p - 1)], [remainder = h >> p]. *)
Definition spec_split (p h : Z) : Z * Z :=
  (Z.land h (2 ^ p - 1), Z.shiftr h p).

(** The bias constant: fixed for the precisions 4, 5 and 6,
    [0.7213 / (1 + 1.079/m)] with [m = 2^p] from 7 on. *)
Definition spec_alpha (p : Z) : float :=
  match p with
  | 4 => 0.673%float
  | 5 => 0.697%float
  | 6 => 0.709%float
  | _ => (0.7213 / (1 + 1.079 / Z2F (2 ^ p)))%float
  end.

(** The estimator [construct(p)] builds: bias constant [alpha_m],
    [m = 2^p] registers, all zero. *)
Definition fresh_estimator (p : Z) : HyperLogLog :=
  {| constant := spec_alpha p;
     indexBits := p;
     mBuckets := 2 ^ p;
     buckets := replicate (Z.to_nat (2 ^ p)) {| cardinalityEstimation := 0 |} |}.

(** [countZeroRegisters()]: the number of registers still at 0. *)
Definition countZeroRegisters (bg : bucketGroup) : Z :=
  Z.of_nat (length (filter (fun b => cardinalityEstimation b = 0) bg)).

(** The sum of [2^(-register[j])] over the registers, in order. *)
Definition spec_sum (bg : bucketGroup) : float :=
  fold_left (fun t b => (t + Z.ldexp 1 (- cardinalityEstimation b))%float) bg 0%float.

(** The raw estimate [E = alpha_m * m^2 / sum_j 2^(-register[j])] of an
    estimator of precision [p], with [m = 2^p]. *)
Definition spec_raw_estimate (p : Z) (bg : bucketGroup) : float :=
  (spec_alpha p * Z2F (2 ^ p) * Z2F (2 ^ p) / spec_sum bg)%float.

(** Register update: [register[index] = max(register[index], rank)]. *)
Definition spec_update (bg : bucketGroup) (index rank : Z) : bucketGroup :=
  match bg !! Z.to_nat index with
  | Some b =>
      <[Z.to_nat index :=
          {| cardinalityEstimation := Z.max (cardinalityEstimation b) rank |}]> bg
  | None => bg
  end.

(** The insertion path in the specification's terms: split the hash,
    rank the remainder, raise the register. *)
Definition spec_Add (hll : HyperLogLog) (s : string) : HyperLogLog :=
  let '(index, remainder) := spec_split (indexBits hll) (hash s) in
  {| constant := constant hll;
     indexBits := indexBits hll;
     mBuckets := mBuckets hll;
     buckets := spec_update (buckets hll) index (spec_rank remainder) |}.

Definition spec_AddAll (hll : HyperLogLog) (ss : list string) : HyperLogLog :=
  fold_left spec_Add ss hll.

(** ** Registers as a function of the strings added

    What the insertion path of the code stores, read off [splitBinary],
    [findRun] and [updateLongestRun]. *)

(** The rank one [Add] of [s] offers to its bucket at precision [p]:
    [findRun(w) + 1] for the remainder [w] of the hash, and nothing (0)
    for the zero remainder, whose rank is never stored. *)
Definition observed_rank (p : Z) (s : string) : Z :=
  let w := hash s / 2 ^ p in
  if w =? 0 then 0 else trailing_zero_count w + 1.

(** The largest rank the strings of [ss] that select bucket [j] offer. *)
Fixpoint max_rank (p : Z) (j : nat) (ss : list string) : Z :=
  match ss with
  | [] => 0
  | s :: ss' =>
      if (Z.to_nat (hash s mod 2 ^ p) =? j)%nat
      then Z.max (observed_rank p s) (max_rank p j ss')
      else max_rank p j ss'
  end.

(** ** A concrete runtime

    An instance of [GoRuntime] at which the hypotheses of the section
    [Properties] hold, used to run the theorems on concrete inputs:
    - [fdlibm_log] is the algorithm of FreeBSD's [e_log.c], which Go's
      portable [math.Log] follows: argument reduction with [Frexp], then a
      degree-14 polynomial in [s = f/(2+f)];
    - [frexp_log2] is [math.Log2]: exact on powers of two, [Log] otherwise;
    - [pow_integral] is [x**y] for an integral [y] by repeated
      multiplication; the program passes no other exponent;
    - the conversions are those of x86-64, whose [CVTTSD2SQ] returns the
      "integer indefinite" value [0x8000000000000000] for NaN, the
      infinities and every value out of range. *)

Definition Frexp (f : float) : float * Z :=
  if (f =? 0)%float || is_infinity f || is_nan f then (f, 0)
  else Z.frexp f.

Definition Sqrt2Over2 : float := 0.70710678118654752440%float.
Definition Ln2 : float := 0.693147180559945309417232121458176568%float.

Definition fdlibm_log (x : float) : float :=
  if is_nan x || Leibniz.eqb x infinity then x
  else if (x <? 0)%float then nan
  else if (x =? 0)%float then neg_infinity
  else
    let '(f1, ki) := Frexp x in
    let '(f1, ki) :=
      if (f1 <? Sqrt2Over2)%float then ((f1 * 2)%float, ki - 1) else (f1, ki) in
    let f := (f1 - 1)%float in
    let k := Z2F ki in
    let s := (f / (2 + f))%float in
    let s2 := (s * s)%float in
    let s4 := (s2 * s2)%float in
    let t1 := (s2 * (6.666666666666735130e-01
                     + s4 * (2.857142874366239149e-01
                             + s4 * (1.818357216161805012e-01
                                     + s4 * 1.479819860511658591e-01))))%float in
    let t2 := (s4 * (3.999999999940941908e-01
                     + s4 * (2.222219843214978396e-01
                             + s4 * 1.531383769920937332e-01)))%float in
    let R := (t1 + t2)%float in
    let hfsq := (0.5 * f * f)%float in
    (k * 6.93147180369123816490e-01
     - ((hfsq - (s * (hfsq + R) + k * 1.90821492927058770002e-10)) - f))%float.

Definition frexp_log2 (x : float) : float :=
  let '(frac, e) := Frexp x in
  if (frac =? 0.5)%float then Z2F (e - 1)
  else (fdlibm_log frac * (1 / Ln2) + Z2F e)%float.

Definition pow_integral (x y : float) : float :=
  match Ftrunc y with
  | Some k =>
      if Leibniz.eqb (Z2F k) y || (y =? 0)%float then
        let r := Z.iter (Z.abs k) (fun a => (a * x)%float) 1%float in
        if k <? 0 then (1 / r)%float else r
      else nan
  | None => nan
  end.

Definition int64_indefinite : Z := - 2 ^ 63.

Definition cvttsd2sq (f : float) : Z :=
  match Ftrunc f with
  | Some z => if (- 2 ^ 63 <=? z) && (z <? 2 ^ 63) then z else int64_indefinite
  | None => int64_indefinite
  end.

Definition amd64 : GoRuntime :=
  {| Log := fdlibm_log;
     Log2 := frexp_log2;
     Pow := pow_integral;
     indefinite_int := fun _ => int64_indefinite;
     indefinite_uint32 := cvttsd2sq |}.

(** The strings of the concrete runs: for each bucket of a 16-bucket
    estimator, one string whose hash selects it with an odd remainder. *)
Definition one_per_bucket : list string :=
  ["u"; "n"; "c"; "d"; "y"; "r"; "w"; "h";
   "m"; "f"; "qb"; "ma"; "q"; "j"; "o"; "ia"]%string.

(** A string whose 32-bit hash is below [2^14]: its remainder is 0 for the
    precisions 14, 15 and 16. *)
Definition zero_remainder_string : string := "cdhf"%string.

(** * Properties *)

(** ** Machine arithmetic *)

Lemma u32_range z : 0 <= u32 z < 2 ^ 32.
Proof. unfold u32. apply Z.mod_pos_bound. lia. Qed.

Lemma u32_small z : 0 <= z < 2 ^ 32 -> u32 z = z.
Proof. intros Hz. unfold u32. apply Z.mod_small. exact Hz. Qed.

Lemma wrap64_range z : - 2 ^ 63 <= wrap64 z < 2 ^ 63.
Proof.
  unfold wrap64.
  pose proof (Z.mod_pos_bound (z + 2 ^ 63) (2 ^ 64) ltac:(lia)). lia.
Qed.

Lemma wrap64_small z : - 2 ^ 63 <= z < 2 ^ 63 -> wrap64 z = z.
Proof. intros Hz. unfold wrap64. rewrite Z.mod_small; lia. Qed.

(** [Z2F] rounds as IEEE 754 prescribes: on [0, 2^63) it is the binary64
    value [binary_normalize] specifies. *)
Lemma Z2F_rounds z :
  0 <= z < 2 ^ 63 ->
  Prim2SF (Z2F z) = binary_normalize prec emax z 0 false.
Proof.
  intros Hz. unfold Z2F.
  destruct (Z.leb_spec 0 z), (Z.ltb_spec z (2 ^ 63)); try lia. cbn [andb].
  rewrite of_uint63_spec, Uint63.of_Z_spec.
  rewrite Z.mod_small; [reflexivity|]. exact Hz.
Qed.

(** The published FNV-1a test vectors. *)
Example hash_a : hash "a" = 0xe40c292c.
Proof. reflexivity. Qed.

Example hash_foobar : hash "foobar" = 0xbf9cf968.
Proof. reflexivity. Qed.

Lemma fnv1a_range s : forall h, 0 <= h < 2 ^ 32 -> 0 <= fnv1a h s < 2 ^ 32.
Proof.
  induction s as [|c s IH]; intros h Hh; simpl.
  - exact Hh.
  - apply IH. apply u32_range.
Qed.

Lemma hash_range s : 0 <= hash s < 2 ^ 32.
Proof. unfold hash. apply fnv1a_range. lia. Qed.

(** ** The lowest set bit: [a & -a] *)

Lemma land_double a b : Z.land (2 * a) (2 * b) = 2 * Z.land a b.
Proof.
  apply Z.bits_inj'. intros i Hi. rewrite Z.land_spec.
  destruct (Z.eq_dec i 0) as [-> | Hne].
  - rewrite !Z.testbit_even_0. reflexivity.
  - replace i with (Z.succ (i - 1)) by lia.
    rewrite !Z.testbit_even_succ by lia. apply eq_sym, Z.land_spec.
Qed.

Lemma land_succ_double a b :
  Z.land (2 * a + 1) (2 * b + 1) = 2 * Z.land a b + 1.
Proof.
  apply Z.bits_inj'. intros i Hi. rewrite Z.land_spec.
  destruct (Z.eq_dec i 0) as [-> | Hne].
  - rewrite !Z.testbit_odd_0. reflexivity.
  - replace i with (Z.succ (i - 1)) by lia.
    rewrite !Z.testbit_odd_succ by lia. apply eq_sym, Z.land_spec.
Qed.

Lemma pos_trailing_zeros_nonneg p : 0 <= pos_trailing_zeros p.
Proof. induction p; simpl; lia. Qed.

Lemma land_opp_pos p : Z.land (Z.pos p) (- Z.pos p) = 2 ^ pos_trailing_zeros p.
Proof.
  induction p as [q IH | q IH |].
  - (* odd: the complement of the upper bits shares none of them *)
    replace (Z.pos q~1) with (2 * Z.pos q + 1) by lia.
    replace (- (2 * Z.pos q + 1)) with (2 * Z.lnot (Z.pos q) + 1)
      by (unfold Z.lnot; lia).
    rewrite land_succ_double, Z.land_lnot_diag. reflexivity.
  - replace (Z.pos q~0) with (2 * Z.pos q) by lia.
    replace (- (2 * Z.pos q)) with (2 * - Z.pos q) by lia.
    rewrite land_double, IH. cbn [pos_trailing_zeros].
    rewrite Z.pow_add_r by (pose proof (pos_trailing_zeros_nonneg q); lia).
    reflexivity.
  - reflexivity.
Qed.

Lemma pow2_trailing_zeros_le p : 2 ^ pos_trailing_zeros p <= Z.pos p.
Proof.
  induction p as [q IH | q IH |]; cbn [pos_trailing_zeros].
  - lia.
  - rewrite Z.pow_add_r by (pose proof (pos_trailing_zeros_nonneg q); lia). lia.
  - lia.
Qed.

Lemma trailing_zero_count_bound w n :
  0 <= n -> 0 < w < 2 ^ n -> 0 <= trailing_zero_count w < n.
Proof.
  intros Hn [Hpos Hlt]. destruct w as [|p|p]; try lia.
  cbn [trailing_zero_count]. split; [apply pos_trailing_zeros_nonneg|].
  apply (Z.pow_lt_mono_r_iff 2); [lia | lia |].
  pose proof (pow2_trailing_zeros_le p). lia.
Qed.

Lemma lowest_set_bit w :
  0 < w < 2 ^ 32 -> Z.land w (u32 (- w)) = 2 ^ trailing_zero_count w.
Proof.
  intros [Hpos Hlt]. unfold u32.
  rewrite <- Z.land_ones by lia.
  rewrite Z.land_assoc, (Z.land_comm w (- w)), <- Z.land_assoc.
  rewrite (Z.land_ones w) by lia. rewrite (Z.mod_small w) by lia.
  rewrite Z.land_comm.
  destruct w as [|p|p]; try lia. apply land_opp_pos.
Qed.

(** ** Case analysis over a bounded integer

    [enum_Z k tac] expects [Hlo : lo <= k] and [Hhi : k <= hi] with
    literal bounds and runs [tac] with [k] replaced by each value. *)

Ltac enum_Z k tac :=
  lazymatch goal with
  | Hlo : ?lo <= k, Hhi : k <= ?hi |- _ =>
      first
        [ exfalso; lia
        | let Hcase := fresh "Hcase" in
          assert (Hcase : k = lo \/ lo + 1 <= k) by lia;
          destruct Hcase as [Hcase | Hcase];
          [ subst k; clear Hlo Hhi; tac
          | clear Hlo; simpl in Hcase; enum_Z k tac ] ]
  end.

Section Properties.
Context {rt : GoRuntime}.

(** *** What the proofs assume of the standard library and the platform

    Each hypothesis is used only where a statement lists it. *)

(** [math.Log]: "Log(+Inf) = +Inf". *)
Hypothesis Log_inf : Log infinity = infinity.

(** [math.Log]: the logarithm of 1 is exactly 0. *)
Hypothesis Log_one : Log 1 = 0%float.

(** [math.Log2]: "The special cases are the same as for Log", of which
    "Log(0) = -Inf". *)
Hypothesis Log2_zero : Log2 0 = neg_infinity.

(** [math.Log2]: exact powers of two give an exact answer. *)
Hypothesis Log2_pow2 : forall k, 0 <= k <= 31 -> Log2 (Z2F (2 ^ k)) = Z2F k.

(** [math.Pow]: a small integral power of two is exact. *)
Hypothesis Pow_two : forall k, -64 <= k <= 64 -> Pow 2 (Z2F k) = Z.ldexp 1 k.

(** The platform converts [-Inf] to a negative [int] (x86-64 and ARM64
    both give the least [int64]). *)
Hypothesis int_neg_inf : F2int neg_infinity < 0.

(** *** Conversions at the values the program meets *)

Lemma F2int_range f : - 2 ^ 63 <= F2int f < 2 ^ 63.
Proof.
  unfold F2int. destruct (Ftrunc f) as [z|]; [|apply wrap64_range].
  destruct (andb _ _) eqn:Hb; [|apply wrap64_range].
  apply andb_prop in Hb as [H1 H2]. lia.
Qed.

Lemma F2int_small k : 0 <= k <= 32 -> F2int (Z2F k) = k.
Proof. intros [Hlo Hhi]. enum_Z k ltac:(vm_compute; reflexivity). Qed.

Lemma F2uint32_ldexp i : 0 <= i <= 31 -> F2uint32 (Z.ldexp 1 i) = 2 ^ i.
Proof. intros [Hlo Hhi]. enum_Z i ltac:(vm_compute; reflexivity). Qed.

Lemma F2int_ldexp p : 0 <= p <= 16 -> F2int (Z.ldexp 1 p) = 2 ^ p.
Proof. intros [Hlo Hhi]. enum_Z p ltac:(vm_compute; reflexivity). Qed.

Lemma Z2F_pow2 p : 0 <= p <= 16 -> Z2F (2 ^ p) = Z.ldexp 1 p.
Proof. intros [Hlo Hhi]. enum_Z p ltac:(vm_compute; reflexivity). Qed.

Lemma F2int_infinity : F2int infinity = wrap64 (indefinite_int infinity).
Proof. reflexivity. Qed.

Lemma F2int_neg_infinity : F2int neg_infinity = wrap64 (indefinite_int neg_infinity).
Proof. reflexivity. Qed.

(** *** BitSplitter: the mask and the split *)

Lemma F2uint32_pow2 i : 0 <= i <= 31 -> F2uint32 (Pow 2 (Z2F i)) = 2 ^ i.
Proof. intros Hi. rewrite Pow_two by lia. apply F2uint32_ldexp, Hi. Qed.

Lemma headBitLoop_sum n : forall i x,
  0 <= i -> i + Z.of_nat n <= 32 -> 0 <= x ->
  x + 2 ^ (i + Z.of_nat n) - 2 ^ i < 2 ^ 32 ->
  headBitLoop n i x = x + 2 ^ (i + Z.of_nat n) - 2 ^ i.
Proof.
  induction n as [|n IH]; intros i x Hi Hn Hx Hsum; cbn [headBitLoop].
  - replace (i + Z.of_nat 0) with i by lia. lia.
  - rewrite F2uint32_pow2 by lia.
    assert (Hstep : 2 ^ (i + Z.of_nat (S n)) = 2 ^ (i + 1 + Z.of_nat n))
      by (f_equal; lia).
    assert (Hpow : 2 ^ (i + 1) = 2 * 2 ^ i)
      by (rewrite Z.pow_add_r by lia; lia).
    assert (Hmono : 2 ^ (i + 1) <= 2 ^ (i + 1 + Z.of_nat n))
      by (apply Z.pow_le_mono_r; lia).
    assert (Hposi : 0 < 2 ^ i) by (apply Z.pow_pos_nonneg; lia).
    rewrite u32_small by lia.
    rewrite IH by lia. lia.
Qed.

Lemma getHeadBitTotal_first bits :
  0 <= bits <= 31 -> getHeadBitTotal bits 1 = 2 ^ bits - 1.
Proof.
  intros Hb. unfold getHeadBitTotal, byteSize.
  change (u32 (u32 (8 * 1) - 8)) with 0.
  rewrite Z.add_0_r, Z.sub_0_r, u32_small by lia.
  assert (Hlt : 2 ^ bits < 2 ^ 32) by (apply Z.pow_lt_mono_r; lia).
  rewrite headBitLoop_sum; rewrite ?Z2Nat.id, ?Z.add_0_l by lia; lia.
Qed.

Lemma getHeadBitTotal_second bits :
  0 <= bits <= 23 -> getHeadBitTotal bits 2 = 2 ^ (8 + bits) - 2 ^ 8.
Proof.
  intros Hb. unfold getHeadBitTotal, byteSize.
  change (u32 (u32 (8 * 2) - 8)) with 8.
  rewrite u32_small by lia.
  assert (Hlt : 2 ^ (8 + bits) < 2 ^ 32) by (apply Z.pow_lt_mono_r; lia).
  assert (Hge : 2 ^ 8 <= 2 ^ (8 + bits)) by (apply Z.pow_le_mono_r; lia).
  replace (bits + 8 - 8) with bits by lia.
  rewrite headBitLoop_sum; rewrite ?Z2Nat.id by lia; lia.
Qed.

(** The mask built from floating-point powers is the integer mask. *)
Lemma getSignificantBits_mask n :
  0 <= n <= 16 -> getSignificantBits n = 2 ^ n - 1.
Proof.
  intros Hn. unfold getSignificantBits, byteSize.
  destruct (n <=? 8) eqn:Hle.
  - apply getHeadBitTotal_first. lia.
  - apply Z.leb_gt in Hle.
    rewrite (u32_small (n - 8)) by lia.
    rewrite getHeadBitTotal_first, getHeadBitTotal_second by lia.
    replace (8 + (n - 8)) with n by lia.
    assert (Hlt : 2 ^ n < 2 ^ 32) by (apply Z.pow_lt_mono_r; lia).
    assert (Hge : 2 ^ 8 <= 2 ^ n) by (apply Z.pow_le_mono_r; lia).
    rewrite u32_small; lia.
Qed.

Lemma splitBinary_split hll h :
  0 <= indexBits hll <= 16 -> 0 <= h < 2 ^ 32 ->
  splitBinary hll h = (h mod 2 ^ indexBits hll, h / 2 ^ indexBits hll).
Proof.
  intros Hp Hh. unfold splitBinary.
  rewrite getSignificantBits_mask by lia.
  replace (2 ^ indexBits hll - 1) with (Z.ones (indexBits hll))
    by (rewrite Z.ones_equiv; lia).
  rewrite Z.land_ones by lia.
  assert (Hpos : 0 < 2 ^ indexBits hll) by (apply Z.pow_pos_nonneg; lia).
  pose proof (Z.mod_pos_bound h (2 ^ indexBits hll) Hpos) as Hmod.
  pose proof (Z.div_mod h (2 ^ indexBits hll) ltac:(lia)) as Hdm.
  assert (Hq : 0 <= h / 2 ^ indexBits hll) by (apply Z.div_pos; lia).
  rewrite u32_small by nia.
  rewrite Z.shiftr_div_pow2 by lia.
  f_equal.
  replace (h - h mod 2 ^ indexBits hll)
    with (h / 2 ^ indexBits hll * 2 ^ indexBits hll) by lia.
  apply Z.div_mul. lia.
Qed.

Lemma spec_split_split p h :
  0 <= p -> spec_split p h = (h mod 2 ^ p, h / 2 ^ p).
Proof.
  intros Hp. unfold spec_split.
  replace (2 ^ p - 1) with (Z.ones p) by (rewrite Z.ones_equiv; lia).
  rewrite Z.land_ones, Z.shiftr_div_pow2 by lia. reflexivity.
Qed.

Lemma remainder_bound p h :
  0 <= p <= 32 -> 0 <= h < 2 ^ 32 -> 0 <= h / 2 ^ p < 2 ^ (32 - p).
Proof.
  intros Hp Hh.
  assert (Hpos : 0 < 2 ^ p) by (apply Z.pow_pos_nonneg; lia).
  split; [apply Z.div_pos; lia|].
  apply Z.div_lt_upper_bound; [lia|].
  rewrite <- Z.pow_add_r by lia. replace (p + (32 - p)) with 32 by lia. lia.
Qed.

(** *** RankFunction: [findRun] and [updateLongestRun] *)

Lemma findRun_trailing_zeros w :
  0 < w < 2 ^ 32 -> findRun w = trailing_zero_count w.
Proof.
  intros Hw. unfold findRun.
  pose proof (trailing_zero_count_bound w 32 ltac:(lia) Hw) as Htz.
  rewrite lowest_set_bit by exact Hw.
  rewrite Log2_pow2 by lia.
  apply F2int_small. lia.
Qed.

Lemma findRun_zero_neg_infinity : findRun 0 = F2int neg_infinity.
Proof.
  unfold findRun. change (Z2F (Z.land 0 (u32 (- 0)))) with 0%float.
  rewrite Log2_zero. reflexivity.
Qed.

Lemma bucket_eta b : {| cardinalityEstimation := cardinalityEstimation b |} = b.
Proof. destruct b. reflexivity. Qed.

Lemma updateLongestRun_max b w :
  0 < w < 2 ^ 32 ->
  updateLongestRun b w =
  {| cardinalityEstimation := Z.max (cardinalityEstimation b) (spec_rank w) |}.
Proof.
  intros Hw. unfold updateLongestRun, spec_rank.
  pose proof (trailing_zero_count_bound w 32 ltac:(lia) Hw) as Htz.
  rewrite findRun_trailing_zeros by exact Hw.
  rewrite wrap64_small by lia.
  destruct (Z.ltb_spec (cardinalityEstimation b) (trailing_zero_count w + 1)).
  - rewrite Z.max_r by lia. reflexivity.
  - rewrite Z.max_l by lia. symmetry. apply bucket_eta.
Qed.

Lemma updateLongestRun_zero b :
  0 <= cardinalityEstimation b -> updateLongestRun b 0 = b.
Proof.
  intros Hb. unfold updateLongestRun. rewrite findRun_zero_neg_infinity.
  pose proof (F2int_range neg_infinity) as Hr.
  rewrite wrap64_small by lia.
  destruct (Z.ltb_spec (cardinalityEstimation b) (F2int neg_infinity + 1)); [lia|].
  reflexivity.
Qed.

(** The two facts below hold whatever the runtime computes. *)

Lemma updateLongestRun_le b v :
  cardinalityEstimation b <= cardinalityEstimation (updateLongestRun b v).
Proof.
  unfold updateLongestRun.
  destruct (Z.ltb_spec (cardinalityEstimation b) (wrap64 (findRun v + 1)));
    cbn [cardinalityEstimation]; lia.
Qed.

Lemma updateLongestRun_idem b v :
  updateLongestRun (updateLongestRun b v) v = updateLongestRun b v.
Proof.
  unfold updateLongestRun at 2 3.
  destruct (Z.ltb_spec (cardinalityEstimation b) (wrap64 (findRun v + 1)))
    as [Hlt | Hge].
  - unfold updateLongestRun. cbn [cardinalityEstimation].
    rewrite Z.ltb_irrefl. reflexivity.
  - unfold updateLongestRun.
    destruct (Z.ltb_spec (cardinalityEstimation b) (wrap64 (findRun v + 1)));
      [lia | reflexivity].
Qed.

Lemma updateLongestRun_bounded p b w :
  4 <= p <= 16 -> 0 <= w < 2 ^ (32 - p) ->
  0 <= cardinalityEstimation b <= 32 - p ->
  0 <= cardinalityEstimation (updateLongestRun b w) <= 32 - p.
Proof.
  intros Hp Hw Hb.
  destruct (Z.eq_dec w 0) as [-> | Hne].
  - rewrite updateLongestRun_zero; lia.
  - assert (Hw32 : 0 < w < 2 ^ 32).
    { split; [lia|]. apply Z.lt_le_trans with (2 ^ (32 - p)); [lia|].
      apply Z.pow_le_mono_r; lia. }
    rewrite updateLongestRun_max by exact Hw32. cbn [cardinalityEstimation].
    pose proof (trailing_zero_count_bound w (32 - p) ltac:(lia) ltac:(lia)).
    unfold spec_rank. lia.
Qed.

(** *** Construction *)

Lemma NewHyperLogLog_invalid p :
  p < 4 \/ 16 < p ->
  NewHyperLogLog p = Returns (zeroHyperLogLog, Some invalidIndexBits).
Proof.
  intros Hp. unfold NewHyperLogLog.
  destruct (Z.ltb_spec p 4), (Z.ltb_spec 16 p); try reflexivity; lia.
Qed.

Lemma NewHyperLogLog_valid p :
  4 <= p <= 16 ->
  NewHyperLogLog p = Returns (fresh_estimator p, None).
Proof.
  intros Hp. unfold NewHyperLogLog.
  destruct (Z.ltb_spec p 4), (Z.ltb_spec 16 p); try lia. cbn [orb].
  rewrite Pow_two by lia. rewrite F2int_ldexp by lia.
  unfold newBucketGroup.
  assert (Hpos : 0 < 2 ^ p) by (apply Z.pow_pos_nonneg; lia).
  destruct (Z.ltb_spec (2 ^ p) 0); [lia|].
  rewrite u32_small by lia.
  unfold fresh_estimator, spec_alpha. rewrite Z2F_pow2 by lia. reflexivity.
Qed.

Lemma NewHyperLogLog_well_formed p hll :
  NewHyperLogLog p = Returns (hll, None) ->
  well_formed hll /\ registers_bounded hll.
Proof.
  intros Hnew.
  destruct (Z_lt_le_dec p 4) as [Hlt | Hge];
    [rewrite NewHyperLogLog_invalid in Hnew by lia; discriminate|].
  destruct (Z_lt_le_dec 16 p) as [Hgt | Hle];
    [rewrite NewHyperLogLog_invalid in Hnew by lia; discriminate|].
  rewrite NewHyperLogLog_valid in Hnew by lia.
  injection Hnew as <-.
  assert (Hpos : 0 < 2 ^ p) by (apply Z.pow_pos_nonneg; lia).
  split.
  - unfold well_formed; cbn. rewrite length_replicate, Z2Nat.id by lia. lia.
  - unfold registers_bounded; cbn. apply Forall_replicate. cbn. lia.
Qed.

(** *** Insertion *)

Lemma bucket_index_lt hll s :
  well_formed hll -> (bucket_index hll s < length (buckets hll))%nat.
Proof.
  intros (Hp & _ & Hlen). unfold bucket_index.
  assert (Hpos : 0 < 2 ^ indexBits hll) by (apply Z.pow_pos_nonneg; lia).
  pose proof (Z.mod_pos_bound (hash s) _ Hpos). lia.
Qed.

Lemma Add_returns hll s :
  well_formed hll ->
  exists b,
    buckets hll !! bucket_index hll s = Some b /\
    Add hll s =
    Returns {| constant := constant hll;
               indexBits := indexBits hll;
               mBuckets := mBuckets hll;
               buckets := <[bucket_index hll s :=
                              updateLongestRun b (hash s / 2 ^ indexBits hll)]>
                            (buckets hll) |}.
Proof.
  intros Hwf.
  destruct (lookup_lt_is_Some_2 _ _ (bucket_index_lt hll s Hwf)) as [b Hb].
  exists b. split; [exact Hb|].
  destruct Hwf as (Hp & _ & _).
  unfold Add. rewrite splitBinary_split by (lia || apply hash_range).
  cbv beta iota. fold (bucket_index hll s). rewrite Hb. reflexivity.
Qed.

Lemma Add_well_formed hll s hll' :
  well_formed hll -> Add hll s = Returns hll' -> well_formed hll'.
Proof.
  intros Hwf Hadd. destruct (Add_returns hll s Hwf) as (b & _ & Heq).
  rewrite Heq in Hadd. injection Hadd as <-.
  destruct Hwf as (Hp & Hm & Hlen).
  unfold well_formed; cbn. rewrite length_insert. auto.
Qed.

Lemma Add_registers_le hll s hll' :
  well_formed hll -> Add hll s = Returns hll' ->
  registers_le (buckets hll) (buckets hll').
Proof.
  intros Hwf Hadd. destruct (Add_returns hll s Hwf) as (b & Hb & Heq).
  rewrite Heq in Hadd. injection Hadd as <-. cbn.
  unfold registers_le.
  rewrite <- (list_insert_id (buckets hll) (bucket_index hll s) b Hb) at 1.
  apply Forall2_insert.
  - apply Forall2_same_length_lookup. split; [reflexivity|].
    intros i x y Hx Hy. rewrite Hx in Hy. injection Hy as <-. lia.
  - apply updateLongestRun_le.
Qed.

Lemma Add_registers_bounded hll s hll' :
  well_formed hll -> registers_bounded hll -> Add hll s = Returns hll' ->
  registers_bounded hll'.
Proof.
  intros Hwf Hbd Hadd. destruct (Add_returns hll s Hwf) as (b & Hb & Heq).
  rewrite Heq in Hadd. injection Hadd as <-.
  unfold registers_bounded in *; cbn.
  destruct Hwf as (Hp & _ & _).
  apply Forall_insert; [exact Hbd|].
  apply updateLongestRun_bounded; [lia | |].
  - apply remainder_bound; [lia | apply hash_range].
  - rewrite Forall_lookup in Hbd. exact (Hbd _ _ Hb).
Qed.

Lemma reachable_invariant hll :
  reachable hll -> well_formed hll /\ registers_bounded hll.
Proof.
  induction 1 as [p hll Hp Hnew | hll hll' s Hreach [IHwf IHbd] Hadd].
  - exact (NewHyperLogLog_well_formed p hll Hnew).
  - split.
    + exact (Add_well_formed hll s hll' IHwf Hadd).
    + exact (Add_registers_bounded hll s hll' IHwf IHbd Hadd).
Qed.

(** *** Estimation: the two sums *)

Lemma fold_left_replicate {A B} (f : A -> B -> A) (x : B) n : forall acc,
  fold_left f (replicate n x) acc = Nat.iter n (fun a => f a x) acc.
Proof.
  induction n as [|n IH]; intros acc; [reflexivity|].
  cbn [replicate fold_left]. rewrite IH, Nat.iter_succ_r. reflexivity.
Qed.

Lemma countZeroBuckets_fresh n :
  countZeroBuckets (replicate n {| cardinalityEstimation := 0 |}) =
  Nat.iter n (fun c => (c + 1)%float) 0%float.
Proof. unfold countZeroBuckets. rewrite fold_left_replicate. reflexivity. Qed.

Lemma harmonicTotal_fresh n :
  harmonicTotal (replicate n {| cardinalityEstimation := 0 |}) =
  Nat.iter n (fun t => (t + 1)%float) 0%float.
Proof.
  unfold harmonicTotal. rewrite fold_left_replicate. cbn [cardinalityEstimation].
  change (Z2F (wrap64 (-1 * 0))) with (Z2F 0).
  rewrite Pow_two by lia. reflexivity.
Qed.

Lemma countZeroBuckets_none bg :
  Forall (fun b => cardinalityEstimation b <> 0) bg ->
  countZeroBuckets bg = 0%float.
Proof.
  unfold countZeroBuckets. generalize 0%float as acc.
  induction bg as [|b bg IH]; intros acc Hnz; [reflexivity|].
  apply Forall_cons in Hnz as [Hb Hnz]. cbn [fold_left].
  destruct (Z.eqb_spec (cardinalityEstimation b) 0); [contradiction|].
  apply IH, Hnz.
Qed.

(** Counting in [float64] is exact for as many buckets as an estimator
    can have. *)
Lemma all_from_spec f fuel : forall lo,
  all_from fuel lo f = true ->
  forall n, lo <= n < lo + Z.of_nat fuel -> f n = true.
Proof.
  induction fuel as [|fuel IH]; intros lo Hall n Hn; [lia|].
  cbn [all_from] in Hall. apply andb_prop in Hall as [Hlo Hrest].
  destruct (Z.eq_dec n lo) as [-> | Hne]; [exact Hlo|].
  apply (IH (lo + 1) Hrest). lia.
Qed.

Lemma Z2F_succ n : 0 <= n < 65536 -> (Z2F n + 1)%float = Z2F (n + 1).
Proof.
  intros Hn. apply Leibniz.eqb_spec.
  apply (all_from_spec (fun n => Leibniz.eqb (Z2F n + 1)%float (Z2F (n + 1)))
           (Z.to_nat 65536) 0); [vm_compute; reflexivity | lia].
Qed.

Lemma countZeroBuckets_count bg :
  Z.of_nat (length bg) <= 65536 ->
  countZeroBuckets bg = Z2F (countZeroRegisters bg).
Proof.
  unfold countZeroBuckets, countZeroRegisters.
  change 0%float with (Z2F 0).
  assert (Hgen : forall n, 0 <= n -> n + Z.of_nat (length bg) <= 65536 ->
    fold_left
      (fun count b => if cardinalityEstimation b =? 0 then (count + 1)%float else count)
      bg (Z2F n) =
    Z2F (n + Z.of_nat (length (filter (fun b => cardinalityEstimation b = 0) bg)))).
  { induction bg as [|b bg IH]; intros n Hn Hlen.
    - cbn. rewrite Z.add_0_r. reflexivity.
    - cbn [fold_left]. cbn [length] in Hlen. rewrite filter_cons.
      destruct (Z.eqb_spec (cardinalityEstimation b) 0) as [Hz | Hnz].
      + rewrite decide_True by exact Hz. rewrite Z2F_succ by lia.
        rewrite IH by lia. f_equal. cbn [length]. lia.
      + rewrite decide_False by exact Hnz. apply IH; lia. }
  intros Hlen. apply (Hgen 0); lia.
Qed.

(** *** Estimation: comparing floats *)

Lemma SFcompare_antisym a b :
  SFcompare a b = option_map CompOpp (SFcompare b a).
Proof.
  destruct a as [sa | sa | | sa ma ea], b as [sb | sb | | sb mb eb];
    cbn; try reflexivity;
    try (destruct sa; reflexivity); try (destruct sb; reflexivity);
    try (destruct sa, sb; reflexivity).
  pose proof (Pos.compare_cont_antisym mb ma Eq) as Hm. cbn [CompOpp] in Hm.
  destruct sa, sb; cbn; try reflexivity;
    rewrite (Z.compare_antisym eb ea);
    destruct (eb ?= ea); cbn; try reflexivity;
    rewrite <- Hm; destruct (Pos.compare_cont Eq mb ma); reflexivity.
Qed.

Lemma ltb_not_leb (x y : float) : (y <? x)%float = true -> (x <=? y)%float = false.
Proof.
  rewrite ltb_spec, leb_spec. unfold SFltb, SFleb.
  rewrite (SFcompare_antisym (Prim2SF x) (Prim2SF y)).
  destruct (SFcompare (Prim2SF y) (Prim2SF x)) as [[| |]|]; cbn; congruence.
Qed.

(** *** Estimation: the raw estimate and its correction *)

Lemma harmonicTotal_spec_sum bg :
  Forall (fun b => 0 <= cardinalityEstimation b <= 64) bg ->
  harmonicTotal bg = spec_sum bg.
Proof.
  unfold harmonicTotal, spec_sum. generalize 0%float as acc.
  induction bg as [|b bg IH]; intros acc Hbd; [reflexivity|].
  apply Forall_cons in Hbd as [Hb Hbd]. cbn [fold_left].
  rewrite wrap64_small by lia.
  rewrite Pow_two by lia.
  replace (-1 * cardinalityEstimation b) with (- cardinalityEstimation b) by lia.
  apply IH, Hbd.
Qed.

Lemma Len_well_formed hll :
  well_formed hll -> Len (buckets hll) = Z2F (2 ^ indexBits hll).
Proof. intros (_ & _ & Hlen). unfold Len. rewrite Hlen. reflexivity. Qed.

Lemma reachable_well_formed hll : reachable hll -> well_formed hll.
Proof.
  induction 1 as [p hll Hp Hnew | hll hll' s Hreach IH Hadd].
  - exact (proj1 (NewHyperLogLog_well_formed p hll Hnew)).
  - exact (Add_well_formed hll s hll' IH Hadd).
Qed.

Lemma Add_constant hll s hll' :
  well_formed hll -> Add hll s = Returns hll' ->
  constant hll' = constant hll /\ indexBits hll' = indexBits hll /\
  mBuckets hll' = mBuckets hll.
Proof.
  intros Hwf Hadd. destruct (Add_returns hll s Hwf) as (b & _ & Heq).
  rewrite Heq in Hadd. injection Hadd as <-. auto.
Qed.

Lemma reachable_constant hll :
  reachable hll -> constant hll = spec_alpha (indexBits hll).
Proof.
  induction 1 as [p hll Hp Hnew | hll hll' s Hreach IH Hadd].
  - destruct (Z_lt_le_dec p 4) as [Hlt | Hge];
      [rewrite NewHyperLogLog_invalid in Hnew by lia; discriminate|].
    destruct (Z_lt_le_dec 16 p) as [Hgt | Hle];
      [rewrite NewHyperLogLog_invalid in Hnew by lia; discriminate|].
    rewrite NewHyperLogLog_valid in Hnew by lia.
    injection Hnew as <-. reflexivity.
  - destruct (Add_constant hll s hll' (reachable_well_formed hll Hreach) Hadd)
      as (-> & -> & _). exact IH.
Qed.

Lemma rawEstimate_spec hll :
  reachable hll ->
  rawEstimate (buckets hll) (constant hll) =
  spec_raw_estimate (indexBits hll) (buckets hll).
Proof.
  intros Hreach.
  destruct (reachable_invariant hll Hreach) as [Hwf Hbd].
  unfold rawEstimate, spec_raw_estimate.
  rewrite (reachable_constant hll Hreach), (Len_well_formed hll Hwf).
  rewrite harmonicTotal_spec_sum; [reflexivity|].
  destruct Hwf as (Hp & _). unfold registers_bounded in Hbd.
  eapply Forall_impl; [exact Hbd|]. cbn. intros b Hb. lia.
Qed.

(** Division of the bucket count by zero, and what follows it. *)
Lemma buckets_over_zero p :
  4 <= p <= 16 ->
  (Z2F (2 ^ p) / 0)%float = infinity /\
  (Z2F (2 ^ p) * infinity)%float = infinity.
Proof. intros [Hlo Hhi]. enum_Z p ltac:(vm_compute; split; reflexivity). Qed.

Lemma correct_no_zero_bucket hll E :
  well_formed hll ->
  Forall (fun b => cardinalityEstimation b <> 0) (buckets hll) ->
  (E <=? 2.5 * Len (buckets hll))%float = true ->
  correct (buckets hll) E = infinity.
Proof.
  intros Hwf Hnz Hle. unfold correct. rewrite Hle.
  unfold smallRangeCorrection.
  rewrite (countZeroBuckets_none _ Hnz), (Len_well_formed hll Hwf).
  destruct Hwf as (Hp & _).
  destruct (buckets_over_zero (indexBits hll) Hp) as [Hdiv Hmul].
  rewrite Hdiv, Log_inf. exact Hmul.
Qed.

(** The floats of a fresh estimator: [m] ones add up to [m], the raw
    estimate [alpha_m * m] is below [2.5 * m], and [m / m] is 1. *)
Lemma fresh_floats p :
  4 <= p <= 16 ->
  let m := Z2F (2 ^ p) in
  let t := Nat.iter (Z.to_nat (2 ^ p)) (fun c => (c + 1)%float) 0%float in
  t = m /\
  (spec_alpha p * m * m / m <=? 2.5 * m)%float = true /\
  (m / m)%float = 1%float /\
  (m * 0)%float = 0%float.
Proof.
  intros [Hlo Hhi].
  enum_Z p ltac:(vm_compute; repeat split; reflexivity).
Qed.

Lemma harmonicMean_fresh p :
  4 <= p <= 16 ->
  harmonicMean (replicate (Z.to_nat (2 ^ p)) {| cardinalityEstimation := 0 |})
               (spec_alpha p) = 0.
Proof.
  intros Hp. destruct (fresh_floats p Hp) as (Ht & Hle & Hdiv & Hmul).
  assert (Hpos : 0 < 2 ^ p) by (apply Z.pow_pos_nonneg; lia).
  unfold harmonicMean, rawEstimate, correct, smallRangeCorrection, Len.
  rewrite length_replicate, Z2Nat.id by lia.
  rewrite harmonicTotal_fresh, countZeroBuckets_fresh, Ht, Hle, Hdiv, Log_one, Hmul.
  reflexivity.
Qed.

(** *** Insertion in the specification's terms *)

Lemma updateLongestRun_is_max b v :
  updateLongestRun b v =
  {| cardinalityEstimation :=
       Z.max (cardinalityEstimation b) (wrap64 (findRun v + 1)) |}.
Proof.
  unfold updateLongestRun.
  destruct (Z.ltb_spec (cardinalityEstimation b) (wrap64 (findRun v + 1))).
  - rewrite Z.max_r by lia. reflexivity.
  - rewrite Z.max_l by lia. symmetry. apply bucket_eta.
Qed.

Lemma Add_refines hll s :
  well_formed hll -> hash s / 2 ^ indexBits hll <> 0 ->
  Add hll s = Returns (spec_Add hll s).
Proof.
  intros Hwf Hw. destruct (Add_returns hll s Hwf) as (b & Hb & ->).
  destruct Hwf as (Hp & _).
  unfold spec_Add. rewrite spec_split_split by lia. cbv beta iota.
  unfold spec_update. fold (bucket_index hll s). rewrite Hb.
  pose proof (remainder_bound (indexBits hll) (hash s) ltac:(lia) (hash_range s))
    as Hr.
  assert (Hw32 : 0 < hash s / 2 ^ indexBits hll < 2 ^ 32).
  { split; [lia|]. apply Z.lt_le_trans with (2 ^ (32 - indexBits hll)); [lia|].
    apply Z.pow_le_mono_r; lia. }
  rewrite updateLongestRun_max by exact Hw32. reflexivity.
Qed.

Lemma spec_Add_well_formed hll s :
  well_formed hll -> well_formed (spec_Add hll s).
Proof.
  intros (Hp & Hm & Hlen). unfold spec_Add.
  destruct (spec_split (indexBits hll) (hash s)) as [i r].
  unfold well_formed, spec_update; cbn.
  destruct (buckets hll !! Z.to_nat i); [rewrite length_insert|]; auto.
Qed.

Lemma spec_Add_indexBits hll s : indexBits (spec_Add hll s) = indexBits hll.
Proof.
  unfold spec_Add. destruct (spec_split (indexBits hll) (hash s)). reflexivity.
Qed.

Lemma AddAll_refines ss : forall hll,
  well_formed hll ->
  Forall (fun s => hash s / 2 ^ indexBits hll <> 0) ss ->
  AddAll hll ss = Returns (spec_AddAll hll ss).
Proof.
  induction ss as [|s ss IH]; intros hll Hwf Hnz; [reflexivity|].
  apply Forall_cons in Hnz as [Hs Hnz].
  cbn [AddAll]. rewrite (Add_refines hll s Hwf Hs).
  unfold spec_AddAll. cbn [fold_left]. apply IH.
  - apply spec_Add_well_formed, Hwf.
  - rewrite spec_Add_indexBits. exact Hnz.
Qed.

Lemma Add_zero_remainder hll s :
  well_formed hll -> registers_bounded hll ->
  hash s / 2 ^ indexBits hll = 0 ->
  Add hll s = Returns hll.
Proof.
  intros Hwf Hbd Hw. destruct (Add_returns hll s Hwf) as (b & Hb & ->).
  rewrite Hw. unfold registers_bounded in Hbd. rewrite Forall_lookup in Hbd.
  rewrite updateLongestRun_zero by (apply (Hbd _ _ Hb)).
  rewrite list_insert_id by exact Hb. destruct hll. reflexivity.
Qed.

Lemma AddAll_reachable ss : forall hll hll',
  reachable hll -> AddAll hll ss = Returns hll' -> reachable hll'.
Proof.
  induction ss as [|s ss IH]; intros hll hll' Hreach Hall; cbn [AddAll] in Hall.
  - injection Hall as <-. exact Hreach.
  - destruct (Add hll s) as [hll1|] eqn:Hadd; [|discriminate].
    apply (IH hll1 hll'); [|exact Hall].
    exact (reachable_add hll hll1 s Hreach Hadd).
Qed.

(** *** The spec's vocabulary is what it says *)

Lemma trailing_zero_count_lowest_bit w :
  0 < w ->
  Z.testbit w (trailing_zero_count w) = true /\
  forall i, 0 <= i < trailing_zero_count w -> Z.testbit w i = false.
Proof.
  intros Hw. destruct w as [|p|p]; try lia. clear Hw.
  cbn [trailing_zero_count].
  induction p as [q IH | q [IHset IHlow] |]; cbn [pos_trailing_zeros].
  - split; [reflexivity | intros i Hi; lia].
  - pose proof (pos_trailing_zeros_nonneg q) as Hnn.
    replace (Z.pos q~0) with (2 * Z.pos q) by lia. split.
    + replace (1 + pos_trailing_zeros q) with (Z.succ (pos_trailing_zeros q)) by lia.
      rewrite Z.testbit_even_succ by lia. exact IHset.
    + intros i Hi. destruct (Z.eq_dec i 0) as [-> | Hne].
      * apply Z.testbit_even_0.
      * replace i with (Z.succ (i - 1)) by lia.
        rewrite Z.testbit_even_succ by lia. apply IHlow. lia.
  - split; [reflexivity | intros i Hi; lia].
Qed.

Lemma registers_le_refl bg : registers_le bg bg.
Proof.
  unfold registers_le. apply Forall2_same_length_lookup. split; [reflexivity|].
  intros i x y Hx Hy. rewrite Hx in Hy. injection Hy as <-. lia.
Qed.

Lemma registers_le_trans bg1 bg2 bg3 :
  registers_le bg1 bg2 -> registers_le bg2 bg3 -> registers_le bg1 bg3.
Proof.
  unfold registers_le. intros H12 H23.
  eapply Forall2_trans; [|exact H12|exact H23].
  cbn. intros b1 b2 b3 Ha Hb. lia.
Qed.

Lemma index_and_remainder_disjoint p h :
  0 <= p -> Z.land (Z.shiftl (h / 2 ^ p) p) (h mod 2 ^ p) = 0.
Proof.
  intros Hp. apply Z.bits_inj'. intros i Hi.
  rewrite Z.land_spec, Z.bits_0.
  destruct (Z_lt_le_dec i p) as [Hlt | Hge].
  - rewrite Z.shiftl_spec_low by lia. reflexivity.
  - rewrite Z.mod_pow2_bits_high by lia. apply andb_false_r.
Qed.

(** ** The claims *)

(** C1.  The claim: when the raw estimate is at most [2.5 * m] and no
    register is zero, [EstimateCardinality] skips the correction and
    returns the raw estimate, and no division by zero occurs.  The code has
    no such case.  For every well-formed estimator whose registers are all
    non-zero and every prediction [E <= 2.5 * m], [countZeroBuckets] is 0,
    the quotient [m / 0] is [+Inf], [correct] returns [+Inf] and not [E],
    and the integer returned is the platform's conversion of [+Inf]. *)
Theorem correct_divides_by_zero hll E :
  well_formed hll ->
  Forall (fun b => cardinalityEstimation b <> 0) (buckets hll) ->
  (E <=? 2.5 * Len (buckets hll))%float = true ->
  countZeroBuckets (buckets hll) = 0%float /\
  (Len (buckets hll) / countZeroBuckets (buckets hll))%float = infinity /\
  correct (buckets hll) E = infinity /\
  F2int (correct (buckets hll) E) = wrap64 (indefinite_int infinity).
Proof.
  intros Hwf Hnz Hle.
  pose proof (countZeroBuckets_none _ Hnz) as Hzero.
  pose proof (correct_no_zero_bucket hll E Hwf Hnz Hle) as Hcorr.
  repeat split.
  - exact Hzero.
  - rewrite Hzero, (Len_well_formed hll Hwf).
    destruct Hwf as (Hp & _). apply (buckets_over_zero _ Hp).
  - exact Hcorr.
  - rewrite Hcorr. apply F2int_infinity.
Qed.

(** C2.  The claim: for the all-zero remainder the rank is a defined
    fallback such as [32 - p + 1], never an undefined or negative value.
    The code has no fallback: [findRun 0] is the conversion to [int] of
    [Log2(0) = -Inf], a value the language leaves to the implementation.
    Where that value is negative (the hypothesis [int_neg_inf]) the rank
    [findRun 0 + 1] is at most 0, no register at or above 0 is raised, and
    an [Add] whose hash has a zero remainder leaves the estimator as it
    was: the element is not counted. *)
Theorem findRun_zero_remainder :
  findRun 0 = wrap64 (indefinite_int neg_infinity) /\
  wrap64 (findRun 0 + 1) <= 0 /\
  (forall b, 0 <= cardinalityEstimation b -> updateLongestRun b 0 = b) /\
  (forall hll s, reachable hll ->
     snd (splitBinary hll (hash s)) = 0 -> Add hll s = Returns hll).
Proof.
  split; [|split; [|split]].
  - rewrite findRun_zero_neg_infinity. apply F2int_neg_infinity.
  - rewrite findRun_zero_neg_infinity.
    pose proof (F2int_range neg_infinity). rewrite wrap64_small by lia. lia.
  - exact updateLongestRun_zero.
  - intros hll s Hreach Hw.
    destruct (reachable_invariant hll Hreach) as [Hwf Hbd].
    apply (Add_zero_remainder hll s Hwf Hbd).
    destruct Hwf as (Hp & _).
    rewrite splitBinary_split in Hw by (lia || apply hash_range). exact Hw.
Qed.

(** C3.  The claim: [EstimateCardinality] returns a non-negative integer
    for every register state of a validly constructed estimator.  After
    [NewHyperLogLog(4)] and one [Add] per string of [one_per_bucket] every
    register is 1; the raw estimate is below [2.5 * 16], no bucket is zero,
    and [EstimateCardinality] returns the platform's conversion of [+Inf]
    to [int64] (the least [int64], a negative number, on x86-64). *)
Theorem estimate_after_one_per_bucket :
  exists hll0 hll,
    NewHyperLogLog 4 = Returns (hll0, None) /\
    AddAll hll0 one_per_bucket = Returns hll /\
    reachable hll /\
    buckets hll = replicate 16 {| cardinalityEstimation := 1 |} /\
    EstimateCardinality hll = wrap64 (indefinite_int infinity).
Proof.
  pose proof (NewHyperLogLog_valid 4 ltac:(lia)) as Hnew.
  set (hll0 := fresh_estimator 4) in *.
  assert (Hwf0 : well_formed hll0)
    by exact (proj1 (NewHyperLogLog_well_formed 4 hll0 Hnew)).
  assert (Hadd : AddAll hll0 one_per_bucket = Returns (spec_AddAll hll0 one_per_bucket)).
  { apply AddAll_refines; [exact Hwf0|].
    unfold one_per_bucket.
    repeat (apply Forall_cons; split; [vm_compute; discriminate|]).
    apply Forall_nil_2. }
  assert (Hreach : reachable (spec_AddAll hll0 one_per_bucket)).
  { apply (AddAll_reachable one_per_bucket hll0); [|exact Hadd].
    apply (reachable_new 4); [lia | exact Hnew]. }
  exists hll0, (spec_AddAll hll0 one_per_bucket).
  split; [exact Hnew|]. split; [exact Hadd|]. split; [exact Hreach|].
  assert (Hst : spec_AddAll hll0 one_per_bucket =
                {| constant := spec_alpha 4; indexBits := 4; mBuckets := 16;
                   buckets := replicate 16 {| cardinalityEstimation := 1 |} |})
    by (vm_compute; reflexivity).
  rewrite Hst in *. split; [reflexivity|].
  unfold EstimateCardinality, harmonicMean.
  rewrite (correct_no_zero_bucket _ _ (reachable_well_formed _ Hreach)).
  - apply F2int_infinity.
  - cbn [buckets]. apply Forall_replicate. cbn. lia.
  - unfold rawEstimate. rewrite harmonicTotal_spec_sum.
    + vm_compute. reflexivity.
    + cbn [buckets]. apply Forall_replicate. cbn. lia.
Qed.

(** C4.  For every reachable estimator, with [m = 2^p] buckets, [V] the
    number of zero registers and [E = alpha_m * m^2 / sum_j 2^(-register[j])]:
    [EstimateCardinality] is the truncation of [correct] applied to [E];
    when [E <= 2.5 * m] the corrected value is [m * Log(m / V)]; when
    [E > 2.5 * m], and whenever the comparison [E <= 2.5 * m] is false, it
    is [E] itself. *)
Theorem EstimateCardinality_correction hll :
  reachable hll ->
  let bg := buckets hll in
  let m := Z2F (2 ^ indexBits hll) in
  let V := Z2F (countZeroRegisters bg) in
  let E := spec_raw_estimate (indexBits hll) bg in
  EstimateCardinality hll = F2int (correct bg E) /\
  ((E <=? 2.5 * m)%float = true -> correct bg E = (m * Log (m / V))%float) /\
  ((2.5 * m <? E)%float = true -> correct bg E = E) /\
  ((E <=? 2.5 * m)%float = false -> correct bg E = E).
Proof.
  intros Hreach bg m V E.
  pose proof (reachable_well_formed hll Hreach) as Hwf.
  assert (Hlen : Z.of_nat (length bg) <= 65536).
  { destruct Hwf as (Hp & _ & Hlen). subst bg. rewrite Hlen.
    change 65536 with (2 ^ 16). apply Z.pow_le_mono_r; lia. }
  assert (Hfalse : (E <=? 2.5 * m)%float = false -> correct bg E = E).
  { intros Hle. unfold correct. subst bg m.
    rewrite (Len_well_formed hll Hwf), Hle. reflexivity. }
  split; [|split; [|split]].
  - unfold EstimateCardinality, harmonicMean. subst bg E.
    rewrite (rawEstimate_spec hll Hreach). reflexivity.
  - intros Hle. unfold correct, smallRangeCorrection. subst bg m V.
    rewrite (Len_well_formed hll Hwf), Hle.
    rewrite (countZeroBuckets_count _ Hlen). reflexivity.
  - intros Hgt. apply Hfalse, ltb_not_leb, Hgt.
  - exact Hfalse.
Qed.

(** C5.  For every precision [p] in [4, 16], [NewHyperLogLog p] returns an
    estimator whose [2^p] registers are all 0 and whose
    [EstimateCardinality] is exactly 0. *)
Theorem fresh_estimate_is_zero p :
  4 <= p <= 16 ->
  exists hll,
    NewHyperLogLog p = Returns (hll, None) /\
    hll = fresh_estimator p /\
    EstimateCardinality hll = 0.
Proof.
  intros Hp. eexists. split; [apply NewHyperLogLog_valid, Hp|].
  split; [reflexivity|].
  unfold EstimateCardinality, fresh_estimator; cbn [buckets constant].
  apply harmonicMean_fresh, Hp.
Qed.

(** C6.  For every 32-bit hash [h] and precision [p] in [4, 16]:
    [splitBinary] returns [(h & (2^p - 1), h >> p)]; the mask summed from
    floating-point powers of two is the integer mask [(1 << p) - 1]; the
    index is below [2^p], the remainder below [2^(32 - p)], the two share
    no bit and together give [h] back; and for [h = 213], [p = 4] the
    result is [(5, 13)]. *)
Theorem splitBinary_spec hll h :
  4 <= indexBits hll <= 16 -> 0 <= h < 2 ^ 32 ->
  let p := indexBits hll in
  splitBinary hll h = spec_split p h /\
  getSignificantBits p = Z.shiftl 1 p - 1 /\
  0 <= fst (splitBinary hll h) < 2 ^ p /\
  0 <= snd (splitBinary hll h) < 2 ^ (32 - p) /\
  Z.land (Z.shiftl (snd (splitBinary hll h)) p) (fst (splitBinary hll h)) = 0 /\
  Z.lor (Z.shiftl (snd (splitBinary hll h)) p) (fst (splitBinary hll h)) = h /\
  (p = 4 -> splitBinary hll 213 = (5, 13)).
Proof.
  intros Hp Hh p. subst p.
  assert (Hpos : 0 < 2 ^ indexBits hll) by (apply Z.pow_pos_nonneg; lia).
  assert (Hdisj := index_and_remainder_disjoint (indexBits hll) h ltac:(lia)).
  rewrite (splitBinary_split hll h) by lia. cbn [fst snd].
  repeat split.
  - symmetry. apply spec_split_split. lia.
  - rewrite getSignificantBits_mask by lia.
    rewrite Z.shiftl_mul_pow2 by lia. lia.
  - apply Z.mod_pos_bound, Hpos.
  - apply Z.mod_pos_bound, Hpos.
  - apply remainder_bound; lia.
  - apply remainder_bound; lia.
  - exact Hdisj.
  - rewrite <- Z.add_nocarry_lor by exact Hdisj.
    rewrite Z.shiftl_mul_pow2 by lia.
    pose proof (Z.div_mod h (2 ^ indexBits hll) ltac:(lia)). lia.
  - intros H4. rewrite splitBinary_split by lia. rewrite H4. reflexivity.
Qed.

(** C7.  For every non-zero 32-bit remainder [w], the rank [Add] computes,
    [findRun w + 1], is [trailing_zero_count w + 1], where bit
    [trailing_zero_count w] of [w] is set and every lower bit is clear;
    [updateLongestRun] raises the register to the maximum of its value and
    that rank; the ranks of 8, 1 and 6 are 4, 1 and 2. *)
Theorem rank_is_trailing_zeros_plus_one w :
  0 < w < 2 ^ 32 ->
  findRun w + 1 = trailing_zero_count w + 1 /\
  Z.testbit w (trailing_zero_count w) = true /\
  (forall i, 0 <= i < trailing_zero_count w -> Z.testbit w i = false) /\
  (forall b, updateLongestRun b w =
             {| cardinalityEstimation :=
                  Z.max (cardinalityEstimation b) (trailing_zero_count w + 1) |}) /\
  findRun 8 + 1 = 4 /\ findRun 1 + 1 = 1 /\ findRun 6 + 1 = 2.
Proof.
  intros Hw.
  destruct (trailing_zero_count_lowest_bit w ltac:(lia)) as [Hset Hlow].
  split; [rewrite findRun_trailing_zeros by exact Hw; reflexivity|].
  split; [exact Hset|]. split; [exact Hlow|].
  split; [intros b; apply updateLongestRun_max, Hw|].
  rewrite !findRun_trailing_zeros by lia. repeat split.
Qed.

(** C8.  [NewHyperLogLog p] returns the error exactly when [p] is outside
    [4, 16], and an estimator with [2^p] zero registers exactly when [p] is
    inside; so 3 and 17 fail, 4 and 16 succeed.  The error is the fixed
    message [invalidIndexBits], which names both ends of the interval, 4
    and 16. *)
Theorem NewHyperLogLog_precision p :
  ((exists msg, NewHyperLogLog p = Returns (zeroHyperLogLog, Some msg)) <->
   (p < 4 \/ 16 < p)) /\
  ((exists hll, NewHyperLogLog p = Returns (hll, None) /\ well_formed hll /\
                indexBits hll = p /\ registers_bounded hll) <->
   4 <= p <= 16) /\
  (p < 4 \/ 16 < p ->
   NewHyperLogLog p = Returns (zeroHyperLogLog, Some invalidIndexBits)) /\
  (p = 3 \/ p = 17 ->
   NewHyperLogLog p = Returns (zeroHyperLogLog, Some invalidIndexBits)) /\
  (p = 4 \/ p = 16 -> exists hll, NewHyperLogLog p = Returns (hll, None)) /\
  substring 34 8 invalidIndexBits = "4>=x>=16"%string.
Proof.
  assert (Hin : 4 <= p <= 16 ->
    exists hll, NewHyperLogLog p = Returns (hll, None) /\ well_formed hll /\
                indexBits hll = p /\ registers_bounded hll).
  { intros Hp. eexists. split; [apply NewHyperLogLog_valid, Hp|].
    pose proof (NewHyperLogLog_well_formed p _ (NewHyperLogLog_valid p Hp)) as [? ?].
    auto. }
  split; [|split; [|split; [|split; [|split]]]].
  - split.
    + intros [msg Hmsg].
      destruct (Z_lt_le_dec p 4); [lia|]. destruct (Z_lt_le_dec 16 p); [lia|].
      rewrite NewHyperLogLog_valid in Hmsg by lia. discriminate.
    + intros Hout. eexists. apply NewHyperLogLog_invalid, Hout.
  - split; [|exact Hin].
    intros (hll & Hnew & _).
    destruct (Z_lt_le_dec p 4);
      [rewrite NewHyperLogLog_invalid in Hnew by lia; discriminate|].
    destruct (Z_lt_le_dec 16 p);
      [rewrite NewHyperLogLog_invalid in Hnew by lia; discriminate|].
    lia.
  - apply NewHyperLogLog_invalid.
  - intros H. apply NewHyperLogLog_invalid. lia.
  - intros H. destruct (Hin ltac:(lia)) as (hll & Hnew & _). eauto.
  - reflexivity.
Qed.

(** C9.  For every reachable estimator and every sequence of [Add] calls:
    the calls return; the bucket index of each one is in [0, m) and within
    the register array; no register decreases; and afterwards every
    register is at least 0 and at most [32 - p], hence at most [33 - p].
    A single [Add] replaces the register by the maximum of its value and
    the rank. *)
Theorem Add_register_invariants hll ss :
  reachable hll ->
  exists hll',
    AddAll hll ss = Returns hll' /\
    reachable hll' /\
    indexBits hll' = indexBits hll /\
    registers_le (buckets hll) (buckets hll') /\
    Forall (fun b => 0 <= cardinalityEstimation b <= 32 - indexBits hll /\
                     cardinalityEstimation b <= 33 - indexBits hll)
           (buckets hll') /\
    Forall (fun s =>
              0 <= fst (splitBinary hll (hash s)) < mBuckets hll /\
              (Z.to_nat (fst (splitBinary hll (hash s))) < length (buckets hll))%nat /\
              forall b, buckets hll !! Z.to_nat (fst (splitBinary hll (hash s))) = Some b ->
                Add hll s =
                Returns {| constant := constant hll;
                           indexBits := indexBits hll;
                           mBuckets := mBuckets hll;
                           buckets :=
                             <[Z.to_nat (fst (splitBinary hll (hash s))) :=
                                 {| cardinalityEstimation :=
                                      Z.max (cardinalityEstimation b)
                                            (wrap64 (findRun (snd (splitBinary hll (hash s))) + 1)) |}]>
                               (buckets hll) |})
           ss.
Proof.
  intros Hreach.
  assert (Hsteps : forall l h, reachable h ->
    exists h', AddAll h l = Returns h' /\ indexBits h' = indexBits h /\
               registers_le (buckets h) (buckets h')).
  { intros l. induction l as [|s l IH]; intros h Hr.
    - exists h. split; [reflexivity|]. split; [reflexivity|].
      apply registers_le_refl.
    - pose proof (reachable_well_formed h Hr) as Hwf.
      destruct (Add_returns h s Hwf) as (b & Hb & Hadd).
      destruct (IH _ (reachable_add _ _ s Hr Hadd)) as (h' & Hall & Hp & Hle).
      exists h'. cbn [AddAll]. rewrite Hadd.
      split; [exact Hall|]. split; [exact Hp|].
      eapply registers_le_trans; [|exact Hle].
      exact (Add_registers_le h s _ Hwf Hadd). }
  destruct (Hsteps ss hll Hreach) as (hll' & Hall & Hp & Hle).
  pose proof (AddAll_reachable ss hll hll' Hreach Hall) as Hreach'.
  exists hll'. split; [exact Hall|]. split; [exact Hreach'|].
  split; [exact Hp|]. split; [exact Hle|]. split.
  - destruct (reachable_invariant hll' Hreach') as [_ Hbd].
    unfold registers_bounded in Hbd. rewrite Hp in Hbd.
    eapply Forall_impl; [exact Hbd|]. cbn. intros b Hb. lia.
  - apply Forall_forall. intros s _.
    pose proof (reachable_well_formed hll Hreach) as Hwf.
    pose proof (bucket_index_lt hll s Hwf) as Hidx.
    destruct (Add_returns hll s Hwf) as (b & Hb & Hadd).
    destruct Hwf as (Hpr & Hm & Hlen).
    rewrite (splitBinary_split hll (hash s)) by (lia || apply hash_range).
    cbn [fst snd]. fold (bucket_index hll s).
    assert (Hpos : 0 < 2 ^ indexBits hll) by (apply Z.pow_pos_nonneg; lia).
    split; [rewrite Hm; apply Z.mod_pos_bound, Hpos|].
    split; [exact Hidx|].
    intros b' Hb'. rewrite Hb in Hb'. injection Hb' as <-.
    rewrite Hadd, updateLongestRun_is_max. reflexivity.
Qed.

(** C10.  For every reachable estimator and every string [s]: [Add s]
    returns a state that a second [Add s], and any number of further ones,
    leaves unchanged, registers and all; hence [EstimateCardinality] is
    unchanged too. *)
Theorem Add_idempotent hll s :
  reachable hll ->
  exists hll',
    Add hll s = Returns hll' /\
    Add hll' s = Returns hll' /\
    (forall n, AddAll hll' (replicate n s) = Returns hll') /\
    (forall n hll'', AddAll hll (replicate (S n) s) = Returns hll'' ->
       buckets hll'' = buckets hll' /\
       EstimateCardinality hll'' = EstimateCardinality hll').
Proof.
  intros Hreach.
  pose proof (reachable_well_formed hll Hreach) as Hwf.
  destruct (Add_returns hll s Hwf) as (b & Hb & Hadd).
  eexists. split; [exact Hadd|].
  match goal with |- Add ?st s = _ /\ _ => set (hll' := st) in * end.
  assert (Hwf' : well_formed hll') by exact (Add_well_formed hll s hll' Hwf Hadd).
  assert (Hagain : Add hll' s = Returns hll').
  { destruct (Add_returns hll' s Hwf') as (b' & Hb' & ->).
    subst hll'. cbn [buckets indexBits constant mBuckets] in *.
    unfold bucket_index in Hb'. cbn [indexBits] in Hb'.
    fold (bucket_index hll s) in Hb'.
    rewrite list_lookup_insert_eq in Hb' by (apply bucket_index_lt, Hwf).
    injection Hb' as <-.
    unfold bucket_index at 1. cbn [indexBits]. fold (bucket_index hll s).
    rewrite updateLongestRun_idem, list_insert_insert_eq. reflexivity. }
  assert (Hmany : forall n, AddAll hll' (replicate n s) = Returns hll').
  { induction n as [|n IH]; [reflexivity|].
    cbn [replicate AddAll]. rewrite Hagain. exact IH. }
  split; [exact Hagain|]. split; [exact Hmany|].
  intros n hll'' Hall. cbn [replicate AddAll] in Hall.
  rewrite Hadd in Hall. fold hll' in Hall. rewrite Hmany in Hall.
  injection Hall as <-. split; reflexivity.
Qed.

(** ** Further properties of the code *)

(** *** The mask builders beyond the validated precisions *)

Lemma getHeadBitTotal_sum bits byteNumber :
  1 <= byteNumber <= 4 -> 0 <= bits -> 8 * (byteNumber - 1) + bits <= 32 ->
  getHeadBitTotal bits byteNumber =
  2 ^ (8 * (byteNumber - 1) + bits) - 2 ^ (8 * (byteNumber - 1)).
Proof.
  intros Hbn Hbits Hsum. unfold getHeadBitTotal, byteSize.
  rewrite (u32_small (8 * byteNumber)) by lia.
  rewrite (u32_small (8 * byteNumber - 8)) by lia.
  rewrite (u32_small (bits + (8 * byteNumber - 8))) by lia.
  replace (bits + (8 * byteNumber - 8) - (8 * byteNumber - 8)) with bits by lia.
  replace (8 * (byteNumber - 1)) with (8 * byteNumber - 8) by lia.
  assert (Hle : 2 ^ (8 * byteNumber - 8 + bits) <= 2 ^ 32)
    by (apply Z.pow_le_mono_r; lia).
  assert (Hpos : 0 < 2 ^ (8 * byteNumber - 8)) by (apply Z.pow_pos_nonneg; lia).
  rewrite headBitLoop_sum; rewrite ?Z2Nat.id by lia; lia.
Qed.

(** X1.  [getHeadBitTotal bits byteNumber] is the value of [bits]
    consecutive one-bits starting at bit [8 * (byteNumber - 1)], for every
    byte of a 32-bit word and every run that stays inside the word; no
    bits give 0, a whole byte gives [255 * 2^(8 * (byteNumber - 1))], and
    the value has no bit below the byte's first. *)
Theorem getHeadBitTotal_run_of_ones bits byteNumber :
  1 <= byteNumber <= 4 -> 0 <= bits -> 8 * (byteNumber - 1) + bits <= 32 ->
  getHeadBitTotal bits byteNumber =
    Z.shiftl (Z.ones bits) (8 * (byteNumber - 1)) /\
  0 <= getHeadBitTotal bits byteNumber < 2 ^ 32 /\
  (bits = 0 -> getHeadBitTotal bits byteNumber = 0) /\
  (bits = 8 -> getHeadBitTotal bits byteNumber = 255 * 2 ^ (8 * (byteNumber - 1))).
Proof.
  intros Hbn Hbits Hsum.
  rewrite (getHeadBitTotal_sum bits byteNumber Hbn Hbits Hsum).
  assert (Hle : 2 ^ (8 * (byteNumber - 1) + bits) <= 2 ^ 32)
    by (apply Z.pow_le_mono_r; lia).
  assert (Hpos : 0 < 2 ^ (8 * (byteNumber - 1))) by (apply Z.pow_pos_nonneg; lia).
  assert (Hposb : 0 < 2 ^ bits) by (apply Z.pow_pos_nonneg; lia).
  assert (Hadd : 2 ^ (8 * (byteNumber - 1) + bits) =
                 2 ^ (8 * (byteNumber - 1)) * 2 ^ bits)
    by (apply Z.pow_add_r; lia).
  repeat split.
  - rewrite Z.shiftl_mul_pow2, Z.ones_equiv by lia. lia.
  - nia.
  - lia.
  - intros ->. rewrite Hadd. change (2 ^ 0) with 1. lia.
  - intros ->. rewrite Hadd. change (2 ^ 8) with 256. lia.
Qed.

(** X2.  [getSignificantBits n] is the mask of the [n] low bits,
    [2^n - 1], for every width [n] from 0 to 32, not only for the
    precisions 4 to 16 that [NewHyperLogLog] admits; 4 bits give 15. *)
Theorem getSignificantBits_all_widths n :
  0 <= n <= 32 ->
  getSignificantBits n = 2 ^ n - 1 /\
  getSignificantBits n = Z.ones n /\
  (forall h, 0 <= h < 2 ^ 32 -> Z.land h (getSignificantBits n) = h mod 2 ^ n) /\
  getSignificantBits 4 = 15.
Proof.
  intros Hn.
  assert (Hmask : forall k, 0 <= k <= 32 -> getSignificantBits k = 2 ^ k - 1).
  { intros k Hk. unfold getSignificantBits, byteSize.
    destruct (k <=? 8) eqn:Hle.
    - apply Z.leb_le in Hle.
      rewrite getHeadBitTotal_sum by lia.
      replace (8 * (1 - 1) + k) with k by lia. reflexivity.
    - apply Z.leb_gt in Hle.
      rewrite (u32_small (k - 8)) by lia.
      rewrite !getHeadBitTotal_sum by lia.
      replace (8 * (2 - 1) + (k - 8)) with k by lia.
      assert (Hle32 : 2 ^ k <= 2 ^ 32) by (apply Z.pow_le_mono_r; lia).
      assert (Hge : 2 ^ 8 <= 2 ^ k) by (apply Z.pow_le_mono_r; lia).
      change (8 * (1 - 1) + 8) with 8. change (8 * (1 - 1)) with 0.
      change (8 * (2 - 1)) with 8.
      rewrite u32_small; lia. }
  split; [apply Hmask, Hn|]. split; [|split].
  - rewrite Z.ones_equiv, Hmask by exact Hn. lia.
  - intros h Hh. rewrite Hmask by exact Hn.
    replace (2 ^ n - 1) with (Z.ones n) by (rewrite Z.ones_equiv; lia).
    apply Z.land_ones. lia.
  - rewrite Hmask by lia. reflexivity.
Qed.

(** *** Buckets *)


Lemma countZeroRegisters_le bg :
  0 <= countZeroRegisters bg <= Z.of_nat (length bg).
Proof.
  unfold countZeroRegisters.
  pose proof (length_filter (fun b => cardinalityEstimation b = 0) bg). lia.
Qed.


(** X4.  For up to 65536 buckets, [countZeroBuckets] is the exact number
    of buckets at 0, as a [float64]: counting by repeated [count++] in
    floating point loses nothing.  That number lies between 0 and the
    number of buckets, is 0 exactly when no bucket is 0, and is the number
    of buckets exactly when all are. *)
Theorem countZeroBuckets_exact bg :
  Z.of_nat (length bg) <= 65536 ->
  countZeroBuckets bg = Z2F (countZeroRegisters bg) /\
  0 <= countZeroRegisters bg <= Z.of_nat (length bg) /\
  (countZeroRegisters bg = 0 <->
   Forall (fun b => cardinalityEstimation b <> 0) bg) /\
  (countZeroRegisters bg = Z.of_nat (length bg) <->
   Forall (fun b => cardinalityEstimation b = 0) bg).
Proof.
  intros Hlen. split; [apply countZeroBuckets_count, Hlen|].
  split; [apply countZeroRegisters_le|].
  unfold countZeroRegisters. split.
  - split.
    + intros Hz. assert (Hnil : filter (fun b => cardinalityEstimation b = 0) bg = [])
        by (apply length_zero_iff_nil; lia).
      apply Forall_forall. intros b Hb Hb0.
      assert (Hin : b ∈ filter (fun b => cardinalityEstimation b = 0) bg)
        by (apply list_elem_of_filter; auto).
      rewrite Hnil in Hin. inversion Hin.
    + intros Hnz. induction bg as [|b bg IH]; [reflexivity|].
      apply Forall_cons in Hnz as [Hb Hnz]. rewrite filter_cons.
      rewrite decide_False by exact Hb. apply IH; [|exact Hnz].
      cbn [length] in Hlen. lia.
  - clear Hlen. split.
    + induction bg as [|b bg IH]; intros Hall; [constructor|].
      rewrite filter_cons in Hall.
      pose proof (length_filter (fun b => cardinalityEstimation b = 0) bg) as Hf.
      destruct (decide (cardinalityEstimation b = 0)) as [Hb | Hb];
        cbn [length] in Hall; [|lia].
      constructor; [exact Hb | apply IH; lia].
    + induction 1 as [|b bg Hb Hall IH]; [reflexivity|].
      rewrite filter_cons, decide_True by exact Hb. cbn [length]. lia.
Qed.

(** *** What [Add] keeps *)

Lemma AddAll_fields ss : forall hll hll',
  well_formed hll -> AddAll hll ss = Returns hll' ->
  constant hll' = constant hll /\ indexBits hll' = indexBits hll /\
  mBuckets hll' = mBuckets hll /\
  length (buckets hll') = length (buckets hll) /\ well_formed hll'.
Proof.
  induction ss as [|s ss IH]; intros hll hll' Hwf Hall; cbn [AddAll] in Hall.
  - injection Hall as <-. auto.
  - destruct (Add_returns hll s Hwf) as (b & _ & Hadd).
    rewrite Hadd in Hall.
    destruct (IH _ hll' (Add_well_formed hll s _ Hwf Hadd) Hall)
      as (Hc & Hp & Hm & Hlen & Hwf').
    cbn [constant indexBits mBuckets buckets] in *.
    rewrite length_insert in Hlen. auto.
Qed.

(** X5.  Precision, bias constant and bucket count are fixed at
    construction: every reachable estimator has a precision [p] in
    [4, 16], the constant [alpha_m] of that precision, [mBuckets = 2^p] and
    exactly [2^p] buckets, and no sequence of [Add] calls changes any of
    them or the length of the bucket array. *)
Theorem reachable_configuration hll ss :
  reachable hll ->
  (4 <= indexBits hll <= 16 /\
   constant hll = spec_alpha (indexBits hll) /\
   mBuckets hll = 2 ^ indexBits hll /\
   Z.of_nat (length (buckets hll)) = mBuckets hll /\
   Len (buckets hll) = Z2F (mBuckets hll)) /\
  (forall hll', AddAll hll ss = Returns hll' ->
     constant hll' = constant hll /\ indexBits hll' = indexBits hll /\
     mBuckets hll' = mBuckets hll /\
     length (buckets hll') = length (buckets hll)).
Proof.
  intros Hreach. pose proof (reachable_well_formed hll Hreach) as Hwf.
  split.
  - pose proof (Len_well_formed hll Hwf) as HLen.
    destruct Hwf as (Hp & Hm & Hlen).
    split; [exact Hp|]. split; [apply reachable_constant, Hreach|].
    split; [exact Hm|]. split; [lia|]. rewrite Hm. exact HLen.
  - intros hll' Hall.
    destruct (AddAll_fields ss hll hll' Hwf Hall) as (? & ? & ? & ? & _). auto.
Qed.

(** *** The registers after a sequence of [Add] calls *)

Lemma trailing_zero_count_nonneg w : 0 <= trailing_zero_count w.
Proof. destruct w; cbn; try lia. apply pos_trailing_zeros_nonneg. Qed.

Lemma observed_rank_nonneg p s : 0 <= observed_rank p s.
Proof.
  unfold observed_rank. destruct (_ =? 0); [lia|].
  pose proof (trailing_zero_count_nonneg (hash s / 2 ^ p)). lia.
Qed.

Lemma max_rank_nonneg p j ss : 0 <= max_rank p j ss.
Proof.
  induction ss as [|s ss IH]; cbn [max_rank]; [lia|].
  destruct (_ =? j)%nat; lia.
Qed.

Lemma max_rank_elem p j ss s :
  s ∈ ss -> Z.to_nat (hash s mod 2 ^ p) = j ->
  observed_rank p s <= max_rank p j ss.
Proof.
  intros Hin Hj. induction Hin as [s ss | s s' ss Hin IH]; cbn [max_rank].
  - rewrite (proj2 (Nat.eqb_eq _ _) Hj). lia.
  - destruct (_ =? j)%nat; lia.
Qed.

Lemma max_rank_le p j ss M :
  0 <= M ->
  (forall s, s ∈ ss -> Z.to_nat (hash s mod 2 ^ p) = j -> observed_rank p s <= M) ->
  max_rank p j ss <= M.
Proof.
  intros HM. induction ss as [|s ss IH]; intros Hall; cbn [max_rank]; [lia|].
  assert (Hrest : max_rank p j ss <= M).
  { apply IH. intros s' Hin. apply Hall. apply list_elem_of_further, Hin. }
  destruct (Nat.eqb_spec (Z.to_nat (hash s mod 2 ^ p)) j) as [Hj | Hj]; [|exact Hrest].
  pose proof (Hall s (list_elem_of_here _ _) Hj). lia.
Qed.

Lemma max_rank_subset p j ss ss' :
  (forall s, s ∈ ss -> s ∈ ss') -> max_rank p j ss <= max_rank p j ss'.
Proof.
  intros Hsub. apply max_rank_le; [apply max_rank_nonneg|].
  intros s Hin Hj. apply max_rank_elem; auto.
Qed.

(** One [Add], in terms of [observed_rank]. *)
Lemma Add_observed hll s :
  well_formed hll -> registers_bounded hll ->
  exists b,
    buckets hll !! bucket_index hll s = Some b /\
    Add hll s =
    Returns {| constant := constant hll;
               indexBits := indexBits hll;
               mBuckets := mBuckets hll;
               buckets :=
                 <[bucket_index hll s :=
                     {| cardinalityEstimation :=
                          Z.max (cardinalityEstimation b)
                                (observed_rank (indexBits hll) s) |}]>
                   (buckets hll) |}.
Proof.
  intros Hwf Hbd. destruct (Add_returns hll s Hwf) as (b & Hb & Hadd).
  exists b. split; [exact Hb|]. rewrite Hadd.
  unfold registers_bounded in Hbd. rewrite Forall_lookup in Hbd.
  pose proof (Hbd _ _ Hb) as Hb0. destruct Hwf as (Hp & _).
  assert (Hupd : updateLongestRun b (hash s / 2 ^ indexBits hll) =
                 {| cardinalityEstimation :=
                      Z.max (cardinalityEstimation b)
                            (observed_rank (indexBits hll) s) |}).
  { unfold observed_rank.
    destruct (Z.eqb_spec (hash s / 2 ^ indexBits hll) 0) as [Hz | Hnz].
    - rewrite Hz, updateLongestRun_zero by lia.
      rewrite Z.max_l by lia. symmetry. apply bucket_eta.
    - pose proof (remainder_bound (indexBits hll) (hash s) ltac:(lia)
                    (hash_range s)) as Hr.
      apply updateLongestRun_max. split; [lia|].
      apply Z.lt_le_trans with (2 ^ (32 - indexBits hll)); [lia|].
      apply Z.pow_le_mono_r; lia. }
  rewrite Hupd. reflexivity.
Qed.

Lemma AddAll_registers ss : forall hll,
  well_formed hll -> registers_bounded hll ->
  exists hll',
    AddAll hll ss = Returns hll' /\
    forall j b, buckets hll !! j = Some b ->
      buckets hll' !! j =
      Some {| cardinalityEstimation :=
                Z.max (cardinalityEstimation b) (max_rank (indexBits hll) j ss) |}.
Proof.
  induction ss as [|s ss IH]; intros hll Hwf Hbd.
  - exists hll. split; [reflexivity|]. intros j b Hb. cbn [max_rank].
    unfold registers_bounded in Hbd. rewrite Forall_lookup in Hbd.
    pose proof (Hbd _ _ Hb). rewrite Z.max_l by lia.
    rewrite bucket_eta. exact Hb.
  - destruct (Add_observed hll s Hwf Hbd) as (bs & Hbs & Hadd).
    pose proof (Add_well_formed hll s _ Hwf Hadd) as Hwf1.
    pose proof (Add_registers_bounded hll s _ Hwf Hbd Hadd) as Hbd1.
    destruct (IH _ Hwf1 Hbd1) as (hll' & Hall & Hregs).
    exists hll'. cbn [AddAll]. rewrite Hadd. split; [exact Hall|].
    intros j b Hb. cbn [buckets indexBits] in Hregs. cbn [max_rank].
    fold (bucket_index hll s).
    destruct (Nat.eqb_spec (bucket_index hll s) j) as [Hj | Hj].
    + subst j. rewrite Hbs in Hb. injection Hb as <-.
      rewrite (Hregs (bucket_index hll s) _
                 (list_lookup_insert_eq _ _ _ (bucket_index_lt hll s Hwf))).
      cbn [cardinalityEstimation]. rewrite Z.max_assoc. reflexivity.
    + apply Hregs. rewrite list_lookup_insert_ne by exact Hj. exact Hb.
Qed.

Lemma AddAll_same_registers hll ss ss' h1 h2 :
  well_formed hll -> registers_bounded hll ->
  (forall j, max_rank (indexBits hll) j ss = max_rank (indexBits hll) j ss') ->
  AddAll hll ss = Returns h1 -> AddAll hll ss' = Returns h2 -> h1 = h2.
Proof.
  intros Hwf Hbd Hmax H1 H2.
  destruct (AddAll_fields ss hll h1 Hwf H1) as (Hc1 & Hp1 & Hm1 & Hl1 & _).
  destruct (AddAll_fields ss' hll h2 Hwf H2) as (Hc2 & Hp2 & Hm2 & Hl2 & _).
  destruct (AddAll_registers ss hll Hwf Hbd) as (h1' & H1' & Hr1).
  destruct (AddAll_registers ss' hll Hwf Hbd) as (h2' & H2' & Hr2).
  rewrite H1 in H1'. injection H1' as <-. rewrite H2 in H2'. injection H2' as <-.
  assert (Hbg : buckets h1 = buckets h2).
  { apply list_eq. intros j.
    destruct (buckets hll !! j) as [b|] eqn:Hb.
    - rewrite (Hr1 j b Hb), (Hr2 j b Hb), Hmax. reflexivity.
    - apply lookup_ge_None in Hb.
      rewrite (proj2 (lookup_ge_None (buckets h1) j)) by lia.
      rewrite (proj2 (lookup_ge_None (buckets h2) j)) by lia. reflexivity. }
  destruct h1, h2. cbn in *. congruence.
Qed.

(** X6.  After any sequence of [Add] calls on a reachable estimator, each
    register holds the maximum of its earlier value and the ranks offered
    by the strings of the sequence that select its bucket, where a string
    offers [trailing_zero_count(w) + 1] for its remainder [w] and nothing
    when [w] is 0.  From a fresh estimator, register [j] is therefore
    [max_rank p j ss]. *)
Theorem registers_after_AddAll hll ss :
  reachable hll ->
  exists hll',
    AddAll hll ss = Returns hll' /\
    length (buckets hll') = length (buckets hll) /\
    forall j b, buckets hll !! j = Some b ->
      buckets hll' !! j =
      Some {| cardinalityEstimation :=
                Z.max (cardinalityEstimation b) (max_rank (indexBits hll) j ss) |}.
Proof.
  intros Hreach. destruct (reachable_invariant hll Hreach) as [Hwf Hbd].
  destruct (AddAll_registers ss hll Hwf Hbd) as (hll' & Hall & Hregs).
  exists hll'. split; [exact Hall|]. split; [|exact Hregs].
  destruct (AddAll_fields ss hll hll' Hwf Hall) as (_ & _ & _ & Hlen & _).
  exact Hlen.
Qed.

(** X7.  The state of an estimator depends only on the set of strings
    added: two sequences with the same elements, in any order and with any
    repetitions, lead a reachable estimator to the same state, and so to
    the same [EstimateCardinality]. *)
Theorem AddAll_depends_on_set hll ss ss' :
  reachable hll ->
  (forall s, s ∈ ss <-> s ∈ ss') ->
  exists hll',
    AddAll hll ss = Returns hll' /\
    AddAll hll ss' = Returns hll' /\
    forall h1 h2, AddAll hll ss = Returns h1 -> AddAll hll ss' = Returns h2 ->
      EstimateCardinality h1 = EstimateCardinality h2.
Proof.
  intros Hreach Hset. destruct (reachable_invariant hll Hreach) as [Hwf Hbd].
  destruct (AddAll_registers ss hll Hwf Hbd) as (h1 & H1 & _).
  destruct (AddAll_registers ss' hll Hwf Hbd) as (h2 & H2 & _).
  assert (Heq : h1 = h2).
  { apply (AddAll_same_registers hll ss ss' h1 h2 Hwf Hbd); [|exact H1|exact H2].
    intros j. apply Z.le_antisymm; apply max_rank_subset; intros s; apply Hset. }
  subst h2. exists h1. split; [exact H1|]. split; [exact H2|].
  intros h1' h2' H1' H2'. congruence.
Qed.

(** X8.  Adding a larger set of strings never gives a smaller register:
    if every string of [ss] occurs in [ss'], each register after [ss'] is
    at least the register after [ss], from the same reachable estimator. *)
Theorem AddAll_monotone_in_set hll ss ss' :
  reachable hll ->
  (forall s, s ∈ ss -> s ∈ ss') ->
  exists h1 h2,
    AddAll hll ss = Returns h1 /\
    AddAll hll ss' = Returns h2 /\
    registers_le (buckets h1) (buckets h2).
Proof.
  intros Hreach Hsub. destruct (reachable_invariant hll Hreach) as [Hwf Hbd].
  destruct (AddAll_registers ss hll Hwf Hbd) as (h1 & H1 & Hr1).
  destruct (AddAll_registers ss' hll Hwf Hbd) as (h2 & H2 & Hr2).
  destruct (AddAll_fields ss hll h1 Hwf H1) as (_ & _ & _ & Hl1 & _).
  destruct (AddAll_fields ss' hll h2 Hwf H2) as (_ & _ & _ & Hl2 & _).
  exists h1, h2. split; [exact H1|]. split; [exact H2|].
  unfold registers_le. apply Forall2_same_length_lookup. split; [lia|].
  intros j x y Hx Hy.
  destruct (buckets hll !! j) as [b|] eqn:Hb.
  - rewrite (Hr1 j b Hb) in Hx. rewrite (Hr2 j b Hb) in Hy.
    injection Hx as <-. injection Hy as <-. cbn [cardinalityEstimation].
    pose proof (max_rank_subset (indexBits hll) j ss ss' Hsub). lia.
  - apply lookup_ge_None in Hb. apply lookup_lt_Some in Hx. lia.
Qed.

(** *** The estimator returned with an error *)

(** X9.  The estimator [NewHyperLogLog] returns together with its error
    is the zero value, whatever the invalid precision: every [Add] on it
    panics (index 0 of an empty bucket array) and its [EstimateCardinality]
    is the conversion to [int64] of [0 * 0 * 0 / 0 = NaN], a value the
    language leaves to the implementation. *)
Theorem rejected_estimator_is_unusable p hll msg :
  NewHyperLogLog p = Returns (hll, Some msg) ->
  (p < 4 \/ 16 < p) /\
  hll = zeroHyperLogLog /\
  (forall s, Add hll s = Panics) /\
  rawEstimate (buckets hll) (constant hll) = nan /\
  EstimateCardinality hll = wrap64 (indefinite_int nan).
Proof.
  intros Hnew. unfold NewHyperLogLog in Hnew.
  destruct ((p <? 4) || (16 <? p)) eqn:Hguard.
  - injection Hnew as <- <-.
    split.
    { apply orb_prop in Hguard as [H | H]; apply Z.ltb_lt in H; lia. }
    split; [reflexivity|]. split; [|split].
    + intros s. unfold Add, splitBinary. cbn [indexBits buckets zeroHyperLogLog].
      change (getSignificantBits 0) with 0.
      rewrite Z.land_0_r. reflexivity.
    + reflexivity.
    + reflexivity.
  - destruct (newBucketGroup _); discriminate.
Qed.

(** *** The small range *)

(** X10.  In the small range the estimate is linear counting: it depends
    on the register array only through the number of zero registers.  Two
    reachable estimators of the same precision with equally many zero
    registers, both with a raw estimate at most [2.5 * m], return the same
    [EstimateCardinality], the truncation of [m * Log(m / V)]. *)
Theorem small_range_depends_on_zero_count h1 h2 :
  reachable h1 -> reachable h2 ->
  indexBits h1 = indexBits h2 ->
  countZeroRegisters (buckets h1) = countZeroRegisters (buckets h2) ->
  (rawEstimate (buckets h1) (constant h1) <=? 2.5 * Len (buckets h1))%float = true ->
  (rawEstimate (buckets h2) (constant h2) <=? 2.5 * Len (buckets h2))%float = true ->
  EstimateCardinality h1 = EstimateCardinality h2 /\
  EstimateCardinality h1 =
    F2int (Z2F (2 ^ indexBits h1)
           * Log (Z2F (2 ^ indexBits h1) / Z2F (countZeroRegisters (buckets h1))))%float.
Proof.
  intros Hr1 Hr2 Hp HV Hle1 Hle2.
  assert (Hest : forall h, reachable h ->
    (rawEstimate (buckets h) (constant h) <=? 2.5 * Len (buckets h))%float = true ->
    EstimateCardinality h =
      F2int (Z2F (2 ^ indexBits h)
             * Log (Z2F (2 ^ indexBits h) / Z2F (countZeroRegisters (buckets h))))%float).
  { intros h Hr Hle. pose proof (reachable_well_formed h Hr) as Hwf.
    unfold EstimateCardinality, harmonicMean, correct. rewrite Hle.
    unfold smallRangeCorrection. rewrite (Len_well_formed h Hwf).
    rewrite countZeroBuckets_count; [reflexivity|].
    destruct Hwf as (Hpr & _ & Hlen). rewrite Hlen.
    change 65536 with (2 ^ 16). apply Z.pow_le_mono_r; lia. }
  split; [|apply Hest; assumption].
  rewrite (Hest h1 Hr1 Hle1), (Hest h2 Hr2 Hle2), Hp, HV. reflexivity.
Qed.

End Properties.

(** ** The hypotheses hold at the concrete runtime *)

Lemma amd64_Log_inf : @Log amd64 infinity = infinity.
Proof. reflexivity. Qed.

Lemma amd64_Log_one : @Log amd64 1 = 0%float.
Proof. vm_compute. reflexivity. Qed.

Lemma amd64_Log2_zero : @Log2 amd64 0 = neg_infinity.
Proof. vm_compute. reflexivity. Qed.

Lemma amd64_Log2_pow2 k : 0 <= k <= 31 -> @Log2 amd64 (Z2F (2 ^ k)) = Z2F k.
Proof. intros [Hlo Hhi]. enum_Z k ltac:(vm_compute; reflexivity). Qed.

Lemma amd64_Pow_two k : -64 <= k <= 64 -> @Pow amd64 2 (Z2F k) = Z.ldexp 1 k.
Proof. intros [Hlo Hhi]. enum_Z k ltac:(vm_compute; reflexivity). Qed.

Lemma amd64_int_neg_inf : @F2int amd64 neg_infinity < 0.
Proof. vm_compute. reflexivity. Qed.

Lemma amd64_fresh_reachable p : 4 <= p <= 16 -> @reachable amd64 (fresh_estimator p).
Proof.
  intros Hp. apply (reachable_new p); [lia|].
  apply (NewHyperLogLog_valid amd64_Pow_two). exact Hp.
Qed.

(** ** The theorems at concrete inputs *)

(** Sixteen registers, all 1: the raw estimate is [0.673 * 16 * 16 / 8],
    the correction divides by zero and the estimate is [+Inf]. *)
Lemma correct_divides_by_zero_witness :
  let hll := {| constant := 0.673%float; indexBits := 4; mBuckets := 16;
                buckets := replicate 16 {| cardinalityEstimation := 1 |} |} in
  let E := @rawEstimate amd64 (buckets hll) (constant hll) in
  E = (0.673 * 16 * 16 / 8)%float /\
  (E <=? 2.5 * 16)%float = true /\
  @countZeroBuckets (buckets hll) = 0%float /\
  (@Len (buckets hll) / @countZeroBuckets (buckets hll))%float = infinity /\
  @correct amd64 (buckets hll) E = infinity /\
  @F2int amd64 (@correct amd64 (buckets hll) E) = - 2 ^ 63.
Proof.
  intros hll E.
  split; [vm_compute; reflexivity|]. split; [vm_compute; reflexivity|].
  apply (correct_divides_by_zero (rt := amd64) amd64_Log_inf hll E).
  - unfold well_formed. cbn. lia.
  - cbn [buckets hll]. apply Forall_replicate. cbn. lia.
  - vm_compute. reflexivity.
Defined.

(** On x86-64 the rank of the zero remainder is [-2^63 + 1]; the hash of
    [zero_remainder_string] is below [2^16], and adding that string to a
    fresh estimator of precision 16 changes nothing. *)
Lemma findRun_zero_remainder_witness :
  @findRun amd64 0 = - 2 ^ 63 /\
  wrap64 (@findRun amd64 0 + 1) <= 0 /\
  (forall b, 0 <= cardinalityEstimation b -> @updateLongestRun amd64 b 0 = b) /\
  @Add amd64 (fresh_estimator 16) zero_remainder_string =
  Returns (fresh_estimator 16).
Proof.
  destruct (findRun_zero_remainder (rt := amd64) amd64_Log2_zero amd64_Log2_pow2
              amd64_Pow_two amd64_int_neg_inf) as (H0 & Hrank & Hupd & Hadd).
  split; [exact H0|]. split; [exact Hrank|]. split; [exact Hupd|].
  apply Hadd.
  - apply amd64_fresh_reachable. lia.
  - rewrite (splitBinary_split amd64_Pow_two)
      by first [apply hash_range | cbn [indexBits fresh_estimator]; lia].
    vm_compute. reflexivity.
Defined.

(** On x86-64 the estimate after one string per bucket is the least
    [int64]. *)
Lemma estimate_after_one_per_bucket_witness :
  exists hll0 hll,
    @NewHyperLogLog amd64 4 = Returns (hll0, None) /\
    @AddAll amd64 hll0 one_per_bucket = Returns hll /\
    @reachable amd64 hll /\
    buckets hll = replicate 16 {| cardinalityEstimation := 1 |} /\
    @EstimateCardinality amd64 hll = -9223372036854775808.
Proof.
  exact (estimate_after_one_per_bucket (rt := amd64)
           amd64_Log_inf amd64_Log2_pow2 amd64_Pow_two).
Defined.

(** After ["a"], ["b"] and ["c"] on 16 buckets, 13 registers are zero, the
    raw estimate is below [2.5 * 16] and the estimate is the integer part
    of [16 * Log(16 / 13)], which is 3. *)
Lemma EstimateCardinality_correction_witness :
  exists hll,
    @AddAll amd64 (fresh_estimator 4) ["a"; "b"; "c"]%string = Returns hll /\
    countZeroRegisters (buckets hll) = 13 /\
    (spec_raw_estimate 4 (buckets hll) <=? 2.5 * 16)%float = true /\
    @correct amd64 (buckets hll) (spec_raw_estimate 4 (buckets hll)) =
      (16 * fdlibm_log (16 / 13))%float /\
    @EstimateCardinality amd64 hll = 3.
Proof.
  destruct (@AddAll amd64 (fresh_estimator 4) ["a"; "b"; "c"]%string)
    as [hll|] eqn:Hall; [|vm_compute in Hall; discriminate].
  pose proof (AddAll_reachable (rt := amd64) _ _ _
                (amd64_fresh_reachable 4 ltac:(lia)) Hall) as Hreach.
  destruct (EstimateCardinality_correction (rt := amd64) amd64_Log2_zero
              amd64_Log2_pow2 amd64_Pow_two amd64_int_neg_inf hll Hreach)
    as (Hest & Hsmall & _ & _).
  vm_compute in Hall. injection Hall as <-.
  exists {| constant := 0.673%float; indexBits := 4; mBuckets := 16;
            buckets := [ {| cardinalityEstimation := 0 |}; {| cardinalityEstimation := 0 |};
                         {| cardinalityEstimation := 1 |}; {| cardinalityEstimation := 0 |};
                         {| cardinalityEstimation := 0 |}; {| cardinalityEstimation := 2 |};
                         {| cardinalityEstimation := 0 |}; {| cardinalityEstimation := 0 |};
                         {| cardinalityEstimation := 0 |}; {| cardinalityEstimation := 0 |};
                         {| cardinalityEstimation := 0 |}; {| cardinalityEstimation := 0 |};
                         {| cardinalityEstimation := 2 |}; {| cardinalityEstimation := 0 |};
                         {| cardinalityEstimation := 0 |}; {| cardinalityEstimation := 0 |} ] |}.
  cbn [buckets indexBits] in *.
  split; [reflexivity|]. split; [reflexivity|].
  split; [vm_compute; reflexivity|].
  split; [rewrite Hsmall by (vm_compute; reflexivity); reflexivity|].
  rewrite Hest, Hsmall by (vm_compute; reflexivity). vm_compute. reflexivity.
Defined.

Lemma fresh_estimate_is_zero_witness :
  exists hll,
    @NewHyperLogLog amd64 16 = Returns (hll, None) /\
    hll = fresh_estimator 16 /\
    @EstimateCardinality amd64 hll = 0.
Proof.
  apply (fresh_estimate_is_zero (rt := amd64) amd64_Log_one amd64_Pow_two 16). lia.
Defined.

Lemma splitBinary_spec_witness :
  let hll := fresh_estimator 4 in
  @splitBinary amd64 hll 213 = (5, 13) /\
  @splitBinary amd64 hll 213 = spec_split 4 213 /\
  @getSignificantBits amd64 4 = 15.
Proof.
  intros hll.
  destruct (splitBinary_spec (rt := amd64) amd64_Pow_two hll 213
              ltac:(cbn; lia) ltac:(lia))
    as (Hsplit & Hmask & _ & _ & _ & _ & Hex).
  split; [apply Hex; reflexivity|]. split; [exact Hsplit | exact Hmask].
Defined.

Lemma rank_is_trailing_zeros_plus_one_witness :
  @findRun amd64 8 + 1 = 4 /\ @findRun amd64 1 + 1 = 1 /\ @findRun amd64 6 + 1 = 2 /\
  @findRun amd64 40 + 1 = trailing_zero_count 40 + 1 /\
  @updateLongestRun amd64 {| cardinalityEstimation := 2 |} 40 =
    {| cardinalityEstimation := 4 |}.
Proof.
  destruct (rank_is_trailing_zeros_plus_one (rt := amd64) amd64_Log2_pow2 40
              ltac:(lia))
    as (Hrank & _ & _ & Hupd & H8 & H1 & H6).
  split; [exact H8|]. split; [exact H1|]. split; [exact H6|].
  split; [exact Hrank|]. exact (Hupd {| cardinalityEstimation := 2 |}).
Defined.

Lemma NewHyperLogLog_precision_witness :
  @NewHyperLogLog amd64 3 = Returns (zeroHyperLogLog, Some invalidIndexBits) /\
  @NewHyperLogLog amd64 17 = Returns (zeroHyperLogLog, Some invalidIndexBits) /\
  (exists hll, @NewHyperLogLog amd64 4 = Returns (hll, None)) /\
  (exists hll, @NewHyperLogLog amd64 16 = Returns (hll, None)).
Proof.
  pose proof (NewHyperLogLog_precision (rt := amd64) amd64_Pow_two) as H.
  split; [apply (H 3); lia|]. split; [apply (H 17); lia|].
  split; [apply (H 4); lia | apply (H 16); lia].
Defined.

Lemma Add_register_invariants_witness :
  exists hll',
    @AddAll amd64 (fresh_estimator 4) ["a"; "b"; "a"]%string = Returns hll' /\
    registers_le (buckets (fresh_estimator 4)) (buckets hll') /\
    Forall (fun b => 0 <= cardinalityEstimation b <= 28) (buckets hll') /\
    0 <= fst (@splitBinary amd64 (fresh_estimator 4) (hash "a")) < 16.
Proof.
  destruct (Add_register_invariants (rt := amd64) amd64_Log2_zero amd64_Log2_pow2
              amd64_Pow_two amd64_int_neg_inf (fresh_estimator 4)
              ["a"; "b"; "a"]%string (amd64_fresh_reachable 4 ltac:(lia)))
    as (hll' & Hall & _ & _ & Hle & Hbd & Hidx).
  exists hll'. split; [exact Hall|]. split; [exact Hle|]. split.
  - eapply Forall_impl; [exact Hbd|]. cbn. intros b Hb. lia.
  - apply Forall_cons in Hidx as [(Ha & _) _]. exact Ha.
Defined.

Lemma Add_idempotent_witness :
  exists hll',
    @Add amd64 (fresh_estimator 4) "a" = Returns hll' /\
    @Add amd64 hll' "a" = Returns hll' /\
    @AddAll amd64 hll' ["a"; "a"; "a"]%string = Returns hll'.
Proof.
  destruct (Add_idempotent (rt := amd64) amd64_Pow_two (fresh_estimator 4) "a"
              (amd64_fresh_reachable 4 ltac:(lia)))
    as (hll' & Hadd & Hagain & Hmany & _).
  exists hll'. split; [exact Hadd|]. split; [exact Hagain|]. exact (Hmany 3%nat).
Defined.

(** ** The further properties at concrete inputs *)

Lemma getHeadBitTotal_run_of_ones_witness :
  @getHeadBitTotal amd64 8 2 = 65280 /\
  @getHeadBitTotal amd64 3 1 = 7 /\
  @getHeadBitTotal amd64 0 4 = 0.
Proof.
  pose proof (getHeadBitTotal_run_of_ones (rt := amd64) amd64_Pow_two) as H.
  split; [|split].
  - apply (H 8 2); lia.
  - apply (H 3 1); lia.
  - apply (H 0 4); lia.
Defined.

Lemma getSignificantBits_all_widths_witness :
  @getSignificantBits amd64 32 = 4294967295 /\
  @getSignificantBits amd64 0 = 0 /\
  @getSignificantBits amd64 4 = 15.
Proof.
  pose proof (getSignificantBits_all_widths (rt := amd64) amd64_Pow_two) as H.
  split; [apply (H 32); lia|]. split; [apply (H 0); lia | apply (H 4); lia].
Defined.

Lemma countZeroBuckets_exact_witness :
  let bg := [ {| cardinalityEstimation := 0 |}; {| cardinalityEstimation := 3 |};
              {| cardinalityEstimation := 0 |} ] in
  countZeroBuckets bg = 2%float /\ countZeroRegisters bg = 2.
Proof.
  intros bg.
  destruct (countZeroBuckets_exact bg ltac:(cbn; lia)) as (Hcount & _).
  split; [exact Hcount | reflexivity].
Defined.

Lemma reachable_configuration_witness :
  exists hll',
    @AddAll amd64 (fresh_estimator 4) ["a"; "b"]%string = Returns hll' /\
    constant hll' = 0.673%float /\ indexBits hll' = 4 /\ mBuckets hll' = 16 /\
    length (buckets hll') = 16%nat.
Proof.
  destruct (@AddAll amd64 (fresh_estimator 4) ["a"; "b"]%string) as [hll'|] eqn:Hall;
    [|vm_compute in Hall; discriminate].
  exists hll'. split; [reflexivity|].
  exact (proj2 (reachable_configuration (rt := amd64) amd64_Pow_two
                  (fresh_estimator 4) ["a"; "b"]%string
                  (amd64_fresh_reachable 4 ltac:(lia))) hll' Hall).
Defined.

(** ["a"] and ["q"] both select bucket 12, with ranks 2 and 1; ["c"]
    selects bucket 2 with rank 1. *)
Lemma registers_after_AddAll_witness :
  exists hll',
    @AddAll amd64 (fresh_estimator 4) ["q"; "a"; "c"]%string = Returns hll' /\
    buckets hll' !! 12%nat = Some {| cardinalityEstimation := 2 |} /\
    buckets hll' !! 2%nat = Some {| cardinalityEstimation := 1 |} /\
    buckets hll' !! 0%nat = Some {| cardinalityEstimation := 0 |}.
Proof.
  destruct (registers_after_AddAll (rt := amd64) amd64_Log2_zero amd64_Log2_pow2
              amd64_Pow_two amd64_int_neg_inf (fresh_estimator 4)
              ["q"; "a"; "c"]%string (amd64_fresh_reachable 4 ltac:(lia)))
    as (hll' & Hall & _ & Hregs).
  exists hll'. split; [exact Hall|].
  split; [|split];
    (etransitivity;
     [apply (Hregs _ {| cardinalityEstimation := 0 |}); reflexivity
     | vm_compute; reflexivity]).
Defined.

Lemma AddAll_depends_on_set_witness :
  exists hll',
    @AddAll amd64 (fresh_estimator 4) ["a"; "b"; "a"]%string = Returns hll' /\
    @AddAll amd64 (fresh_estimator 4) ["b"; "a"]%string = Returns hll'.
Proof.
  destruct (AddAll_depends_on_set (rt := amd64) amd64_Log2_zero amd64_Log2_pow2
              amd64_Pow_two amd64_int_neg_inf (fresh_estimator 4)
              ["a"; "b"; "a"]%string ["b"; "a"]%string
              (amd64_fresh_reachable 4 ltac:(lia)))
    as (hll' & H1 & H2 & _).
  - intros s. rewrite !elem_of_cons, !elem_of_nil. tauto.
  - exists hll'. split; [exact H1 | exact H2].
Defined.

Lemma AddAll_monotone_in_set_witness :
  exists h1 h2,
    @AddAll amd64 (fresh_estimator 4) ["a"]%string = Returns h1 /\
    @AddAll amd64 (fresh_estimator 4) ["b"; "a"]%string = Returns h2 /\
    registers_le (buckets h1) (buckets h2).
Proof.
  apply (AddAll_monotone_in_set (rt := amd64) amd64_Log2_zero amd64_Log2_pow2
           amd64_Pow_two amd64_int_neg_inf (fresh_estimator 4)
           ["a"]%string ["b"; "a"]%string (amd64_fresh_reachable 4 ltac:(lia))).
  intros s. rewrite !elem_of_cons, !elem_of_nil. tauto.
Defined.

Lemma rejected_estimator_is_unusable_witness :
  exists hll,
    @NewHyperLogLog amd64 3 = Returns (hll, Some invalidIndexBits) /\
    @Add amd64 hll "a" = Panics /\
    @EstimateCardinality amd64 hll = - 2 ^ 63.
Proof.
  exists zeroHyperLogLog.
  destruct (rejected_estimator_is_unusable (rt := amd64) 3 zeroHyperLogLog
              invalidIndexBits eq_refl) as (_ & _ & Hadd & _ & Hest).
  split; [reflexivity|]. split; [apply Hadd | exact Hest].
Defined.

(** One string in bucket 12 or one in bucket 5: fifteen zero registers
    either way, and the same estimate. *)
Lemma small_range_depends_on_zero_count_witness :
  exists h1 h2,
    @AddAll amd64 (fresh_estimator 4) ["a"]%string = Returns h1 /\
    @AddAll amd64 (fresh_estimator 4) ["b"]%string = Returns h2 /\
    buckets h1 <> buckets h2 /\
    @EstimateCardinality amd64 h1 = @EstimateCardinality amd64 h2.
Proof.
  destruct (@AddAll amd64 (fresh_estimator 4) ["a"]%string) as [h1|] eqn:H1;
    [|vm_compute in H1; discriminate].
  destruct (@AddAll amd64 (fresh_estimator 4) ["b"]%string) as [h2|] eqn:H2;
    [|vm_compute in H2; discriminate].
  pose proof (AddAll_reachable (rt := amd64) _ _ _
                (amd64_fresh_reachable 4 ltac:(lia)) H1) as Hr1.
  pose proof (AddAll_reachable (rt := amd64) _ _ _
                (amd64_fresh_reachable 4 ltac:(lia)) H2) as Hr2.
  pose proof (small_range_depends_on_zero_count (rt := amd64) amd64_Pow_two
                h1 h2 Hr1 Hr2) as Hsame.
  vm_compute in H1. injection H1 as <-. vm_compute in H2. injection H2 as <-.
  eexists _, _. split; [reflexivity|]. split; [reflexivity|].
  split; [cbn; discriminate|].
  apply Hsame; vm_compute; reflexivity.
Defined.
